(** * reuse: path classification patterns and the [ReuseInfo] record

    A shallow embedding of [src/reuse/__init__.py]:

    - the fragment of Python's [re] pattern language that the module's
      pattern tables use, with a backtracking matcher that follows
      [Pattern.match] (no flags: [.] excludes the line feed, [$] also
      matches just before a final line feed);
    - the pattern tables [_IGNORE_DIR_PATTERNS], [_IGNORE_FILE_PATTERNS]
      and [_IGNORE_SPDX_PATTERNS];
    - the frozen dataclass [ReuseInfo] over a store of Python objects, with
      [_check_nonexistent], [copy], [copy_union],
      [contains_copyright_or_licensing] and [__bool__]. *)

From Stdlib Require Import Ascii String.
From stdpp Require Import base gmap sets list strings.

Local Open Scope string_scope.
Local Open Scope list_scope.
Local Arguments String.append !_ _ / : simpl nomatch.

(** ** Regular expressions *)

Module Re.

(** A pattern item that consumes exactly one character. *)
Inductive atom : Type :=
| Lit (c : ascii)        (* an ordinary or escaped character *)
| Dot.                   (* [.] *)

(** The constructs that occur in the module's patterns.  Repetition is
    only ever applied to a single-character item there ([.*], [.+]). *)
Inductive regex : Type :=
| Eps
| Caret                          (* [^] *)
| Dollar                         (* [$] *)
| One (a : atom)
| Cat (r1 r2 : regex)
| Alt (r1 r2 : regex)            (* [r1|r2] *)
| Opt (r : regex)                (* [r?] *)
| Star (a : atom)                (* [a*] *)
| Plus (a : atom).               (* [a+] *)

Definition newline : ascii := "010"%char.

(** Without [re.DOTALL], [.] matches any character except a line feed. *)
Definition atom_ok (a : atom) (c : ascii) : bool :=
  match a with
  | Lit d => Ascii.eqb d c
  | Dot => negb (Ascii.eqb c newline)
  end.

(** Without [re.MULTILINE], [$] matches at the end of the string and
    just before a line feed that ends the string. *)
Definition at_end (s : string) : bool :=
  match s with
  | EmptyString => true
  | String c EmptyString => Ascii.eqb c newline
  | _ => false
  end.

(** Greedy repetition of a one-character item, then the continuation
    [k] on what is left; on failure one character is given back. *)
Fixpoint star (a : atom) (pos : nat) (s : string)
         (k : nat -> string -> bool) : bool :=
  match s with
  | String c s' => (atom_ok a c && star a (S pos) s' k) || k pos s
  | EmptyString => k pos s
  end.

(** [run r pos s k]: [r] matches a prefix of [s], which starts at index
    [pos] of the subject, and [k] accepts the rest. *)
Fixpoint run (r : regex) (pos : nat) (s : string)
         (k : nat -> string -> bool) : bool :=
  match r with
  | Eps => k pos s
  | Caret => Nat.eqb pos 0 && k pos s
  | Dollar => at_end s && k pos s
  | One a =>
      match s with
      | String c s' => atom_ok a c && k (S pos) s'
      | EmptyString => false
      end
  | Cat r1 r2 => run r1 pos s (fun p t => run r2 p t k)
  | Alt r1 r2 => run r1 pos s k || run r2 pos s k
  | Opt r1 => run r1 pos s k || k pos s
  | Star a => star a pos s k
  | Plus a =>
      match s with
      | String c s' => atom_ok a c && star a (S pos) s' k
      | EmptyString => false
      end
  end.

(** [Pattern.match(string)] as a truth value: the pattern matches at the
    beginning of the string (the match need not reach its end). *)
Definition is_match (r : regex) (s : string) : bool :=
  run r 0 s (fun _ _ => true).

(** *** Reading a pattern from its source text *)

(** Finished alternatives and the items of the current one, both newest
    first. *)
Definition frame : Type := list regex * list regex.

Definition seq_of (items : list regex) : regex :=
  fold_left (fun acc r => Cat r acc) items Eps.

Definition alt_of (alts : list regex) (last : regex) : regex :=
  fold_left (fun acc r => Alt r acc) alts last.

Definition close (f : frame) : regex := alt_of (fst f) (seq_of (snd f)).

Definition push (r : regex) (f : frame) : frame := (fst f, r :: snd f).

Definition is_alnum (c : ascii) : bool :=
  let n := nat_of_ascii c in
  (((48 <=? n) && (n <=? 57)) || ((65 <=? n) && (n <=? 90))
   || ((97 <=? n) && (n <=? 122)))%nat.

(** A quantifier applies to the item before it. *)
Definition quantify (q : ascii) (f : frame) : option frame :=
  match snd f with
  | [] => None
  | r :: items =>
      if Ascii.eqb q "?" then Some (fst f, Opt r :: items)
      else match r with
           | One a =>
               if Ascii.eqb q "*" then Some (fst f, Star a :: items)
               else Some (fst f, Plus a :: items)
           | _ => None
           end
  end.

Fixpoint parse (p : string) (cur : frame) (stack : list frame)
  : option regex :=
  match p with
  | EmptyString =>
      match stack with [] => Some (close cur) | _ :: _ => None end
  | String c p' =>
      if Ascii.eqb c "\" then
        match p' with
        | String d p'' =>
            if is_alnum d then None
            else parse p'' (push (One (Lit d)) cur) stack
        | EmptyString => None
        end
      else if Ascii.eqb c "." then parse p' (push (One Dot) cur) stack
      else if Ascii.eqb c "^" then parse p' (push Caret cur) stack
      else if Ascii.eqb c "$" then parse p' (push Dollar cur) stack
      else if Ascii.eqb c "(" then parse p' ([], []) (cur :: stack)
      else if Ascii.eqb c ")" then
        match stack with
        | outer :: stack' => parse p' (push (close cur) outer) stack'
        | [] => None
        end
      else if Ascii.eqb c "|" then
        parse p' (seq_of (snd cur) :: fst cur, []) stack
      else if Ascii.eqb c "?" || Ascii.eqb c "*" || Ascii.eqb c "+" then
        match quantify c cur with
        | Some cur' => parse p' cur' stack
        | None => None
        end
      else if Ascii.eqb c "[" || Ascii.eqb c "]" || Ascii.eqb c "{"
              || Ascii.eqb c "}" then None
      else parse p' (push (One (Lit c)) cur) stack
  end.

(** [re.compile(r"...")]; [None] for text outside the fragment. *)
Definition compile (p : string) : option regex := parse p ([], []) [].

(** The literal characters of [w], then [r]. *)
Fixpoint lits (w : string) (r : regex) : regex :=
  match w with
  | EmptyString => r
  | String c w' => Cat (One (Lit c)) (lits w' r)
  end.

End Re.

Import Re.

(** ** The pattern tables (lines 57-89 of the source) *)

Definition _IGNORE_DIR_PATTERNS_src : list string :=
  [ "^\.git$";
    "^\.hg$";
    "^LICENSES$";
    "^\.reuse$" ].

Definition _IGNORE_MESON_PARENT_DIR_PATTERNS_src : list string :=
  [ "^subprojects$" ].

Definition _IGNORE_FILE_PATTERNS_base_src : list string :=
  [ "^LICENSE";
    "^COPYING";
    "^\.git$";
    "^\.gitkeep$";
    "^\.hgtags$";
    ".*\.license$";
    "^CAL-1.0(-Combined-Work-Exception)?(\..+)?$";
    "^SHL-2.1(\..+)?$" ].

Definition _IGNORE_SPDX_PATTERNS_src : list string :=
  [ ".*\.spdx$";
    ".*\.spdx.(rdf|json|xml|ya?ml)$" ].

(** The same tables as compiled pattern objects. *)

Definition _IGNORE_DIR_PATTERNS : list regex :=
  [ Cat Caret (lits ".git" (Cat Dollar Eps));
    Cat Caret (lits ".hg" (Cat Dollar Eps));
    Cat Caret (lits "LICENSES" (Cat Dollar Eps));
    Cat Caret (lits ".reuse" (Cat Dollar Eps)) ].

Definition _IGNORE_MESON_PARENT_DIR_PATTERNS : list regex :=
  [ Cat Caret (lits "subprojects" (Cat Dollar Eps)) ].

(** [(\..+)?]: a dot and at least one more character, or nothing. *)
Definition dot_extension : regex :=
  Opt (lits "." (Cat (Plus Dot) Eps)).

Definition _IGNORE_FILE_PATTERNS_base : list regex :=
  [ Cat Caret (lits "LICENSE" Eps);
    Cat Caret (lits "COPYING" Eps);
    (* ".git" as file happens in submodules *)
    Cat Caret (lits ".git" (Cat Dollar Eps));
    Cat Caret (lits ".gitkeep" (Cat Dollar Eps));
    Cat Caret (lits ".hgtags" (Cat Dollar Eps));
    Cat (Star Dot) (lits ".license" (Cat Dollar Eps));
    (* Workaround for https://github.com/fsfe/reuse-tool/issues/229 *)
    Cat Caret
      (lits "CAL-1"
         (Cat (One Dot)
            (lits "0"
               (Cat (Opt (lits "-Combined-Work-Exception" Eps))
                  (Cat dot_extension (Cat Dollar Eps))))));
    Cat Caret
      (lits "SHL-2"
         (Cat (One Dot) (lits "1" (Cat dot_extension (Cat Dollar Eps))))) ].

(** [(rdf|json|xml|ya?ml)] *)
Definition spdx_format_group : regex :=
  Alt (lits "rdf" Eps)
    (Alt (lits "json" Eps)
       (Alt (lits "xml" Eps)
          (lits "y" (Cat (Opt (One (Lit "a"))) (lits "ml" Eps))))).

Definition _IGNORE_SPDX_PATTERNS : list regex :=
  [ Cat (Star Dot) (lits ".spdx" (Cat Dollar Eps));
    Cat (Star Dot)
      (lits ".spdx" (Cat (One Dot) (Cat spdx_format_group (Cat Dollar Eps)))) ].

(** Combine SPDX patterns into file patterns:
    [_IGNORE_FILE_PATTERNS.extend(_IGNORE_SPDX_PATTERNS)]. *)
Definition _IGNORE_FILE_PATTERNS : list regex :=
  _IGNORE_FILE_PATTERNS_base ++ _IGNORE_SPDX_PATTERNS.

(** ** The classification predicates *)

(** Modelled from the spec: the functions that apply the pattern tables
    are not defined in [__init__.py], which only holds the tables.  The
    spec describes them as pure predicates over one path segment that scan
    a table linearly until a rule matches, each rule being matched from
    the first character of the name. *)
Definition matches_any (patterns : list regex) (name : string) : bool :=
  existsb (fun pattern => is_match pattern name) patterns.

(** Modelled from the spec: [is_ignored_directory] is missing from the
    source; it applies [_IGNORE_DIR_PATTERNS] to the name. *)
Definition is_ignored_directory (name : string) : bool :=
  matches_any _IGNORE_DIR_PATTERNS name.

(** Modelled from the spec: [is_ignored_parent_for_subprojects] is missing
    from the source; it applies [_IGNORE_MESON_PARENT_DIR_PATTERNS]. *)
Definition is_ignored_parent_for_subprojects (name : string) : bool :=
  matches_any _IGNORE_MESON_PARENT_DIR_PATTERNS name.

(** Modelled from the spec: [is_ignored_file] is missing from the source;
    it applies [_IGNORE_FILE_PATTERNS], the base patterns extended with
    the SPDX ones. *)
Definition is_ignored_file (name : string) : bool :=
  matches_any _IGNORE_FILE_PATTERNS name.

(** Modelled from the spec: [is_spdx_metadata_file] is missing from the
    source; it applies [_IGNORE_SPDX_PATTERNS]. *)
Definition is_spdx_metadata_file (name : string) : bool :=
  matches_any _IGNORE_SPDX_PATTERNS name.

(** ** The predicates as the specification words them *)

(** Some suffix of [s] satisfies [P]. *)
Fixpoint exists_suffix (P : string -> bool) (s : string) : bool :=
  P s || match s with
         | String _ s' => exists_suffix P s'
         | EmptyString => false
         end.

(** [s.endswith(suffix)] *)
Definition endswith (s suffix : string) : bool :=
  exists_suffix (String.eqb suffix) s.

(** [s.startswith(w)], returning what follows [w]. *)
Fixpoint strip_prefix (w s : string) : option string :=
  match w, s with
  | EmptyString, _ => Some s
  | String a w', String b s' =>
      if Ascii.eqb a b then strip_prefix w' s' else None
  | String _ _, EmptyString => None
  end.

Definition startswith (s w : string) : bool :=
  match strip_prefix w s with Some _ => true | None => false end.

Definition lower (c : ascii) : ascii :=
  let n := nat_of_ascii c in
  if ((65 <=? n) && (n <=? 90))%nat then ascii_of_nat (n + 32) else c.

Fixpoint lowercase (s : string) : string :=
  match s with
  | EmptyString => EmptyString
  | String c s' => String (lower c) (lowercase s')
  end.

Fixpoint no_newline (s : string) : bool :=
  match s with
  | EmptyString => true
  | String c s' => negb (Ascii.eqb c newline) && no_newline s'
  end.

Definition in_list (x : string) (l : list string) : bool :=
  existsb (String.eqb x) l.

Definition ignored_directory_names : list string :=
  [".git"; ".hg"; "LICENSES"; ".reuse"].

(** "true if name exactly matches one of: .git, .hg, LICENSES, .reuse" *)
Definition spec_is_ignored_directory (name : string) : bool :=
  in_list name ignored_directory_names.

Definition spdx_extensions : list string :=
  ["rdf"; "json"; "xml"; "yml"; "yaml"].

(** "true if name ends in .spdx, or matches *.spdx. followed by one of
    rdf|json|xml|yml|yaml (case-insensitive on the extension)" *)
Definition spec_is_spdx_metadata_file (name : string) : bool :=
  endswith name ".spdx"
  || exists_suffix
       (fun t => match strip_prefix ".spdx." t with
                 | Some e => in_list (lowercase e) spdx_extensions
                 | None => false
                 end) name.

(** The same with the extension compared as it is spelt. *)
Definition spec_is_spdx_metadata_file_exact (name : string) : bool :=
  endswith name ".spdx"
  || existsb (fun e => endswith name (".spdx." +:+ e)) spdx_extensions.

(** [name] ends in [.spdx], one character that is not a dot, and one of
    the five extensions. *)
Definition spdx_separator_not_dot (name : string) : bool :=
  exists_suffix
    (fun t => match strip_prefix ".spdx" t with
              | Some (String c e) =>
                  negb (Ascii.eqb c ".") && in_list e spdx_extensions
              | _ => false
              end) name.

(** "[base] (optionally followed by a dot and extension)" *)
Definition legacy_exception (base name : string) : bool :=
  String.eqb name base
  || match strip_prefix (base +:+ ".") name with
     | Some ext => negb (String.eqb ext "")
     | None => false
     end.

(** "true if name matches, as a prefix or whole-string pattern: LICENSE*,
    COPYING*, .git (exact), .gitkeep (exact), .hgtags (exact), any name
    ending in .license, or names matching the two hardcoded legacy
    exceptions", united with the SPDX-metadata patterns. *)
Definition spec_is_ignored_file (name : string) : bool :=
  startswith name "LICENSE"
  || startswith name "COPYING"
  || String.eqb name ".git"
  || String.eqb name ".gitkeep"
  || String.eqb name ".hgtags"
  || endswith name ".license"
  || legacy_exception "CAL-1.0" name
  || legacy_exception "CAL-1.0-Combined-Work-Exception" name
  || legacy_exception "SHL-2.1" name
  || is_spdx_metadata_file name.

(** Nothing, or a dot and at least one more character. *)
Definition optional_extension (t : string) : bool :=
  String.eqb t ""
  || match strip_prefix "." t with
     | Some ext => negb (String.eqb ext "")
     | None => false
     end.

(** [name] starts with [CAL-1] or [SHL-2] and goes on with a character
    that is not a dot. *)
Definition legacy_separator_not_dot (name : string) : bool :=
  match strip_prefix "CAL-1" name, strip_prefix "SHL-2" name with
  | Some (String c _), _ | _, Some (String c _) => negb (Ascii.eqb c ".")
  | _, _ => false
  end.

(** A line feed, as a string. *)
Definition nl : string := String newline "".

(** ** Python values and the object store *)

(** Locations of objects in the store. *)
Abbreviation loc := nat.

(** [class SourceType(Enum)] *)
Inductive SourceType : Type :=
| DOT_LICENSE_FILE       (* A .license file containing license information. *)
| FILE_HEADER            (* A file header containing license information. *)
| DEP5_FILE.             (* A .reuse/dep5 file containing license information. *)

Definition SourceType_value (t : SourceType) : string :=
  match t with
  | DOT_LICENSE_FILE => ".license file"
  | FILE_HEADER => "file header"
  | DEP5_FILE => ".reuse/dep5 file"
  end.

(** The values a [ReuseInfo] attribute or a keyword argument can hold.
    The dataclass does not check its annotations, so any of them can sit
    in any attribute.  Sets are mutable objects: a value refers to one by
    its location in the store. *)
Inductive val : Type :=
| VNone
| VStr (s : string)
| VSourceType (t : SourceType)
| VSet (l : loc).

(** [@dataclass(frozen=True) class ReuseInfo]: the instance's attributes. *)
Record ReuseInfo : Type := mkReuseInfo {
  spdx_expressions : val;       (* Set[Expression], default_factory=set *)
  copyright_lines : val;        (* Set[str], default_factory=set *)
  contributor_lines : val;      (* Set[str], default_factory=set *)
  source_path : val;            (* Optional[str] = None *)
  source_type : val;            (* Optional[SourceType] = None *)
}.

(** [self.__dict__.items()], in the order the fields are declared. *)
Definition __dict__ (self : ReuseInfo) : list (string * val) :=
  [ ("spdx_expressions", spdx_expressions self);
    ("copyright_lines", copyright_lines self);
    ("contributor_lines", contributor_lines self);
    ("source_path", source_path self);
    ("source_type", source_type self) ].

Definition field_names : list string :=
  [ "spdx_expressions"; "copyright_lines"; "contributor_lines";
    "source_path"; "source_type" ].

(** [items[key]] in a dictionary given by its items. *)
Fixpoint item (key : string) (items : list (string * val)) : option val :=
  match items with
  | [] => None
  | (k, v) :: rest => if String.eqb k key then Some v else item key rest
  end.

(** [getattr(self, key)] *)
Definition getattr (self : ReuseInfo) (key : string) : option val :=
  item key (__dict__ self).

(** [kwargs.get(key, d)] *)
Definition kwargs_get (kwargs : gmap string val) (key : string) (d : val)
  : val :=
  default d (kwargs !! key).

(** [isinstance(value, set)] *)
Definition isinstance_set (value : val) : bool :=
  match value with VSet _ => true | _ => false end.

Inductive exn : Type :=
| KeyError (nonexistent_attributes : gset string)
| TypeError
| AttributeError.

(** How a call ends: with a value, with an exception, or, in the model
    only, by following a location that holds no object. *)
Inductive outcome (A : Type) : Type :=
| Return (a : A)
| Raise (e : exn)
| Dangling.
Arguments Return {A} a.
Arguments Raise {A} e.
Arguments Dangling {A}.

Section ObjectStore.

(** [boolean.Expression] is opaque here: hashable and comparable. *)
Context {Expression : Type} `{!EqDecision Expression}
        `{!Countable Expression}.

(** What a set can contain. *)
Inductive elem : Type :=
| EExpr (e : Expression)
| EStr (s : string).

#[global] Instance elem_eq_dec : EqDecision elem.
Proof. solve_decision. Defined.

#[global] Instance elem_countable : Countable elem.
Proof.
  refine (inj_countable'
            (fun x => match x with EExpr e => inl e | EStr s => inr s end)
            (fun y => match y with inl e => EExpr e | inr s => EStr s end)
            _).
  by intros [].
Defined.

(** The store: set objects and [ReuseInfo] instances, each by location.
    Allocation appends. *)
Record heap : Type := mkHeap {
  sets : list (gset elem);
  infos : list ReuseInfo;
}.

(** Computations that read and extend the store. *)
Definition M (A : Type) : Type := heap -> heap * outcome A.

Definition ret {A} (a : A) : M A := fun h => (h, Return a).

Definition raise {A} (e : exn) : M A := fun h => (h, Raise e).

Definition bind {A B} (m : M A) (f : A -> M B) : M B :=
  fun h =>
    match m h with
    | (h', Return a) => f a h'
    | (h', Raise e) => (h', Raise e)
    | (h', Dangling) => (h', Dangling)
    end.

Notation "'do' x <- m ; f" := (bind m (fun x => f))
  (at level 10, x name, m at level 100, f at level 200).

Definition read_set (l : loc) : M (gset elem) :=
  fun h => (h, from_option Return Dangling (sets h !! l)).

Definition read_info (l : loc) : M ReuseInfo :=
  fun h => (h, from_option Return Dangling (infos h !! l)).

Definition new_set (s : gset elem) : M loc :=
  fun h => (mkHeap (sets h ++ [s]) (infos h), Return (length (sets h))).

Definition new_info (r : ReuseInfo) : M loc :=
  fun h => (mkHeap (sets h) (infos h ++ [r]), Return (length (infos h))).

(** [bool(v)] *)
Definition truth (v : val) : M bool :=
  match v with
  | VNone => ret false
  | VStr s => ret (negb (String.eqb s ""))
  | VSourceType _ => ret true
  | VSet l => do s <- read_set l; ret (bool_decide (s ≠ ∅))
  end.

(** Iterating a string yields its characters as strings of length one. *)
Fixpoint characters (s : string) : gset elem :=
  match s with
  | EmptyString => ∅
  | String c s' => {[ EStr (String c "") ]} ∪ characters s'
  end.

(** The elements [set.union(other)] draws from [other]. *)
Definition iterate (other : val) : M (gset elem) :=
  match other with
  | VSet l => read_set l
  | VStr s => ret (characters s)
  | VNone | VSourceType _ => raise TypeError
  end.

(** [value.union(other)]: a new set object. *)
Definition union_ (value other : val) : M val :=
  match value with
  | VSet l =>
      do a <- read_set l;
      do b <- iterate other;
      do l' <- new_set (a ∪ b);
      ret (VSet l')
  | _ => raise AttributeError
  end.

(** [for key, value in items: acc = body(acc, key, value)] *)
Fixpoint for_items {A} (items : list (string * val))
         (body : A -> string -> val -> M A) (acc : A) : M A :=
  match items with
  | [] => ret acc
  | (key, value) :: rest =>
      do acc' <- body acc key value;
      for_items rest body acc'
  end.

(** A parameter of the generated [__init__] whose default is
    [field(default_factory=set)]. *)
Definition argument_or_new_set (kwargs : gmap string val) (name : string)
  : M val :=
  match kwargs !! name with
  | Some v => ret v
  | None => do l <- new_set ∅; ret (VSet l)
  end.

(** [self.__class__] called with keyword arguments only: the constructor
    that [@dataclass] generates. *)
Definition __class__ (kwargs : gmap string val) : M loc :=
  if bool_decide (dom kwargs ⊆ list_to_set field_names) then
    do spdx <- argument_or_new_set kwargs "spdx_expressions";
    do copyright <- argument_or_new_set kwargs "copyright_lines";
    do contributor <- argument_or_new_set kwargs "contributor_lines";
    new_info
      {| spdx_expressions := spdx;
         copyright_lines := copyright;
         contributor_lines := contributor;
         source_path := kwargs_get kwargs "source_path" VNone;
         source_type := kwargs_get kwargs "source_type" VNone |}
  else raise TypeError.

(** ** The methods of [ReuseInfo] *)

(** Calling a method declared [def method(self, **kwargs)] on an
    instance: the instance is bound to the parameter [self], so a
    keyword named [self] is a second value for that parameter and the
    call raises [TypeError] before the body runs. *)
Definition bind_arguments {A} (kwargs : gmap string val) (body : M A)
  : M A :=
  if bool_decide ("self" ∈ dom kwargs) then raise TypeError else body.

Definition _check_nonexistent (self : loc) (kwargs : gmap string val)
  : M unit :=
  bind_arguments kwargs
    (do r <- read_info self;
     let nonexistent_attributes : gset string :=
       dom kwargs ∖ list_to_set (__dict__ r).*1 in
     if bool_decide (nonexistent_attributes ≠ ∅)
     then raise (KeyError nonexistent_attributes)
     else ret tt).

(** The body of the loop of [copy]:
    [new_kwargs[key] = kwargs.get(key, value)]. *)
Definition copy_body (kwargs new_kwargs : gmap string val)
           (key : string) (value : val) : M (gmap string val) :=
  ret (<[key := kwargs_get kwargs key value]> new_kwargs).

(** Return a copy of ReuseInfo, replacing the values of attributes with
    the values from [kwargs]. *)
Definition copy (self : loc) (kwargs : gmap string val) : M loc :=
  bind_arguments kwargs
    (do _ <- _check_nonexistent self kwargs;
     do r <- read_info self;
     do new_kwargs <- for_items (__dict__ r) (copy_body kwargs) ∅;
     __class__ new_kwargs).

(** The body of the loop of [copy_union]: the condition is
    [isinstance(value, set) and kwargs.get(key)], whose second operand is
    only evaluated when the first holds. *)
Definition copy_union_body (kwargs new_kwargs : gmap string val)
           (key : string) (value : val) : M (gmap string val) :=
  do c <- (if isinstance_set value
           then truth (kwargs_get kwargs key VNone)
           else ret false);
  if c then
    do u <- union_ value (kwargs_get kwargs key VNone);
    ret (<[key := u]> new_kwargs)
  else
    ret (<[key := kwargs_get kwargs key value]> new_kwargs).

(** Return a copy of ReuseInfo, replacing the values of Set attributes
    with sets that are the union of the existing set and the set defined
    in [kwargs].  Other attributes defined in [kwargs] are simply
    replaced. *)
Definition copy_union (self : loc) (kwargs : gmap string val) : M loc :=
  bind_arguments kwargs
    (do _ <- _check_nonexistent self kwargs;
     do r <- read_info self;
     do new_kwargs <- for_items (__dict__ r) (copy_union_body kwargs) ∅;
     __class__ new_kwargs).

(** Either [spdx_expressions] or [copyright_lines] is non-empty:
    [bool(self.spdx_expressions or self.copyright_lines)]. *)
Definition contains_copyright_or_licensing (self : loc) : M bool :=
  do r <- read_info self;
  do c <- truth (spdx_expressions r);
  truth (if c then spdx_expressions r else copyright_lines r).

(** [any(values)]: stops at the first true value. *)
Fixpoint any (values : list val) : M bool :=
  match values with
  | [] => ret false
  | v :: rest => do c <- truth v; if c then ret true else any rest
  end.

Definition __bool__ (self : loc) : M bool :=
  do r <- read_info self;
  any (__dict__ r).*2.

End ObjectStore.

(** ** Notions used to state the properties of the record operations *)

Section ReuseInfo_notions.

Context {Expression : Type} `{!EqDecision Expression}
        `{!Countable Expression}.

Local Abbreviation heap := (@heap Expression _ _).
Local Abbreviation M := (@M Expression _ _).

(** The keyword arguments that name every field. *)
Definition all_arguments (v1 v2 v3 v4 v5 : val) : gmap string val :=
  <["source_type" := v5]>
    (<["source_path" := v4]>
       (<["contributor_lines" := v3]>
          (<["copyright_lines" := v2]>
             (<["spdx_expressions" := v1]> ∅)))).

(** The attributes of [r], each replaced by its override if there is
    one. *)
Definition replaced (r : ReuseInfo) (kwargs : gmap string val)
  : ReuseInfo :=
  {| spdx_expressions :=
       kwargs_get kwargs "spdx_expressions" (spdx_expressions r);
     copyright_lines :=
       kwargs_get kwargs "copyright_lines" (copyright_lines r);
     contributor_lines :=
       kwargs_get kwargs "contributor_lines" (contributor_lines r);
     source_path := kwargs_get kwargs "source_path" (source_path r);
     source_type := kwargs_get kwargs "source_type" (source_type r) |}.

(** The set object a value refers to, if it refers to one. *)
Definition set_of (h : heap) (v : val) : option (gset elem) :=
  match v with VSet l => sets h !! l | _ => None end.

(** A computation that may allocate sets and does nothing else to the
    store. *)
Definition grows {A} (m : M A) : Prop :=
  forall h, sets h `prefix_of` sets (m h).1 /\ infos (m h).1 = infos h.

(** A computation that may allocate sets and, when it returns, has
    allocated exactly one instance, the one it returns. *)
Definition builds (m : M loc) : Prop :=
  forall h,
    sets h `prefix_of` sets (m h).1
    /\ match (m h).2 with
       | Return l =>
           l = length (infos h) /\ exists r, infos (m h).1 = infos h ++ [r]
       | _ => infos (m h).1 = infos h
       end.

(** Every object of [h] is the same after the call, and the instance
    returned, if any, is at a location that was free. *)
Definition untouched (h : heap) (res : heap * outcome loc) : Prop :=
  (forall l r, infos h !! l = Some r -> infos res.1 !! l = Some r)
  /\ (forall l s, sets h !! l = Some s -> sets res.1 !! l = Some s)
  /\ (forall l, res.2 = Return l ->
                infos h !! l = None /\ is_Some (infos res.1 !! l)).

(** The content of the set that attribute [key] of the instance at [l]
    refers to. *)
Definition attribute_set (h : heap) (l : loc) (key : string)
  : option (gset elem) :=
  r ← infos h !! l; v ← getattr r key; set_of h v.

(** [Optional[str]] and [Optional[SourceType]] *)
Definition optional_str (v : val) : bool :=
  match v with VNone | VStr _ => true | _ => false end.

Definition optional_source_type (v : val) : bool :=
  match v with VNone | VSourceType _ => true | _ => false end.

(** "all three sets empty, source_path None, source_type None" *)
Definition spec_all_empty (h : heap) (r : ReuseInfo) : Prop :=
  set_of h (spdx_expressions r) = Some ∅
  /\ set_of h (copyright_lines r) = Some ∅
  /\ set_of h (contributor_lines r) = Some ∅
  /\ source_path r = VNone
  /\ source_type r = VNone.

(** The override for [key] is absent or is an empty set. *)
Definition absent_or_empty_set (h : heap) (kwargs : gmap string val)
           (key : string) : Prop :=
  kwargs !! key = None
  \/ exists l, kwargs !! key = Some (VSet l) /\ sets h !! l = Some ∅.

(** The attribute has no override, or it holds a set object and its
    override is a set object too. *)
Definition set_override (h : heap) (kwargs : gmap string val)
           (key : string) (value : val) : Prop :=
  kwargs !! key = None
  \/ (is_Some (set_of h value)
      /\ exists l, kwargs !! key = Some (VSet l) /\ is_Some (sets h !! l)).

(** What the loop of [copy_union] stores for an attribute: the union,
    in a set object of the store [h'] reached, when a set holding [o] is
    given a non-empty set [s]; the override or else the value, as [copy]
    does, when the attribute holds no set. *)
Definition stored (h h' : heap) (kwargs : gmap string val)
           (key : string) (value v' : val) : Prop :=
  (forall lo o ls s,
      value = VSet lo -> sets h !! lo = Some o ->
      kwargs !! key = Some (VSet ls) -> sets h !! ls = Some s -> s ≠ ∅ ->
      exists n, v' = VSet n /\ sets h' !! n = Some (o ∪ s))
  /\ (isinstance_set value = false -> v' = kwargs_get kwargs key value).

(** Folding two pieces of evidence for one attribute, one after the
    other: [self.copy_union(key=v1).copy_union(key=v2)]. *)
Definition copy_union_twice (self : loc) (key : string) (v1 v2 : val)
  : M loc :=
  bind (copy_union self {[ key := v1 ]})
       (fun l => copy_union l {[ key := v2 ]}).

End ReuseInfo_notions.

(** ** Sample stores, with license expressions written as strings *)

(** The receiver of the docstring of [copy_union],
    [ReuseInfo(copyright_lines={"Jane Doe"}, source_path="foo.py")], and
    the set [{"Mr X"}]. *)
Definition old : ReuseInfo :=
  mkReuseInfo (VSet 1) (VSet 0) (VSet 2) (VStr "foo.py") VNone.

Definition docstring_store : @heap string _ _ :=
  mkHeap [ {[ EStr "Jane Doe" ]}; ∅; ∅; {[ EStr "Mr X" ]} ] [ old ].

(** A record built with the empty string as [source_path] and nothing
    else. *)
Definition empty_path : ReuseInfo :=
  mkReuseInfo (VSet 0) (VSet 1) (VSet 2) (VStr "") VNone.

Definition empty_path_store : @heap string _ _ :=
  mkHeap [ ∅; ∅; ∅ ] [ empty_path ].

(** [ReuseInfo(contributor_lines={"Jane Doe"})] *)
Definition only_contributor : ReuseInfo :=
  mkReuseInfo (VSet 1) (VSet 2) (VSet 0) VNone VNone.

Definition only_contributor_store : @heap string _ _ :=
  mkHeap [ {[ EStr "Jane Doe" ]}; ∅; ∅ ] [ only_contributor ].

(** ** Attributes read by value *)

Section ReuseInfo_by_value.

Context {Expression : Type} `{!EqDecision Expression}
        `{!Countable Expression}.

Local Abbreviation heap := (@heap Expression _ _).
Local Abbreviation M := (@M Expression _ _).

(** A value together with the content of the set it refers to. *)
Inductive pyvalue : Type :=
| PNone
| PStr (s : string)
| PSourceType (t : SourceType)
| PSet (s : gset (@elem Expression)).

(** The value [v] stands for in the store [h]; nothing when [v] refers
    to a set that [h] does not hold. *)
Definition value_of (h : heap) (v : val) : option pyvalue :=
  match v with
  | VNone => Some PNone
  | VStr s => Some (PStr s)
  | VSourceType t => Some (PSourceType t)
  | VSet l => PSet <$> sets h !! l
  end.

(** What [truth] answers, read off the value. *)
Definition truthy (p : pyvalue) : bool :=
  match p with
  | PNone => false
  | PStr s => negb (String.eqb s "")
  | PSourceType _ => true
  | PSet s => bool_decide (s ≠ ∅)
  end.

(** What [iterate] yields, read off the value; nothing for a value that
    cannot be iterated. *)
Definition iterated (p : pyvalue) : option (gset elem) :=
  match p with
  | PSet s => Some s
  | PStr s => Some (characters s)
  | PNone | PSourceType _ => None
  end.

(** One turn of the loop of [copy_union] on values: the attribute holds
    [value], the override, if there is one, is [override].  Nothing
    stands for the [TypeError] of [set.union]. *)
Definition united (value : pyvalue) (override : option pyvalue)
  : option pyvalue :=
  match override with
  | None => Some value
  | Some new =>
      match value with
      | PSet o =>
          if truthy new then s ← iterated new; Some (PSet (o ∪ s))
          else Some new
      | _ => Some new
      end
  end.

(** The override for [key], by value. *)
Definition override_of (h : heap) (kwargs : gmap string val)
           (key : string) : option pyvalue :=
  kwargs !! key ≫= value_of h.

(** What [copy_union] called with [kwargs] makes of the attribute [key]
    that holds [value], by value. *)
Definition merged (h : heap) (kwargs : gmap string val) (key : string)
           (value : val) : option pyvalue :=
  old ← value_of h value; united old (override_of h kwargs key).

(** The turn of [copy_union] for [key] takes the branch that stores
    [kwargs.get(key, value)]: the attribute holds no set, or the override
    is absent or false. *)
Definition replaces (h : heap) (kwargs : gmap string val) (key : string)
           (value : val) : bool :=
  negb (isinstance_set value)
  || negb (from_option truthy false (override_of h kwargs key)).

(** The instance at [l], every attribute by value. *)
Definition by_value (h : heap) (l : loc)
  : option (list (string * option pyvalue)) :=
  r ← infos h !! l; Some (prod_map id (value_of h) <$> __dict__ r).

(** Every set that the attributes of [r] refer to is in the store. *)
Definition attributes_in (h : heap) (r : ReuseInfo) : Prop :=
  forall key value, (key, value) ∈ __dict__ r -> is_Some (value_of h value).

(** Every set that the overrides refer to is in the store. *)
Definition overrides_in (h : heap) (kwargs : gmap string val) : Prop :=
  forall key v, kwargs !! key = Some v -> is_Some (value_of h v).

(** No attribute that holds a set is given a [SourceType]. *)
Definition overrides_iterable (r : ReuseInfo) (kwargs : gmap string val)
  : Prop :=
  forall key value t,
    (key, value) ∈ __dict__ r -> isinstance_set value = true ->
    kwargs !! key ≠ Some (VSourceType t).

(** [copy_union] called on the instance that [copy_union] returned. *)
Definition copy_union_then (self : loc) (kwargs1 kwargs2 : gmap string val)
  : M loc :=
  bind (copy_union self kwargs1) (fun l => copy_union l kwargs2).

(** [copy] called on the instance that [copy] returned. *)
Definition copy_then_copy (self : loc) (kwargs1 kwargs2 : gmap string val)
  : M loc :=
  bind (copy self kwargs1) (fun l => copy l kwargs2).

(** The attributes of [r] have their annotated types: three sets of the
    store, [Optional[str]] and [Optional[SourceType]]. *)
Definition typed (h : heap) (r : ReuseInfo) : Prop :=
  is_Some (set_of h (spdx_expressions r))
  /\ is_Some (set_of h (copyright_lines r))
  /\ is_Some (set_of h (contributor_lines r))
  /\ optional_str (source_path r) = true
  /\ optional_source_type (source_type r) = true.

(** The value [v] has the type that the field [key] is annotated
    with. *)
Definition fits (h : heap) (key : string) (v : val) : Prop :=
  if String.eqb key "source_path" then optional_str v = true
  else if String.eqb key "source_type" then optional_source_type v = true
  else is_Some (set_of h v).

Definition typed_overrides (h : heap) (kwargs : gmap string val) : Prop :=
  forall key v, kwargs !! key = Some v -> fits h key v.

(** A computation that leaves the store as it is. *)
Definition reads_only {A} (m : M A) : Prop := forall h, (m h).1 = h.

End ReuseInfo_by_value.

(** ** The tables are the compiled source texts *)

Lemma _IGNORE_DIR_PATTERNS_compiled :
  mapM compile _IGNORE_DIR_PATTERNS_src = Some _IGNORE_DIR_PATTERNS.
Proof. reflexivity. Qed.

Lemma _IGNORE_MESON_PARENT_DIR_PATTERNS_compiled :
  mapM compile _IGNORE_MESON_PARENT_DIR_PATTERNS_src
  = Some _IGNORE_MESON_PARENT_DIR_PATTERNS.
Proof. reflexivity. Qed.

Lemma _IGNORE_FILE_PATTERNS_compiled :
  mapM compile (_IGNORE_FILE_PATTERNS_base_src ++ _IGNORE_SPDX_PATTERNS_src)
  = Some _IGNORE_FILE_PATTERNS.
Proof. reflexivity. Qed.

Lemma _IGNORE_SPDX_PATTERNS_compiled :
  mapM compile _IGNORE_SPDX_PATTERNS_src = Some _IGNORE_SPDX_PATTERNS.
Proof. reflexivity. Qed.

(** ** Facts about strings *)

Section string_facts.

Lemma append_nil_r (s : string) : s +:+ "" = s.
Proof. induction s as [|c s IH]; simpl; [done | by rewrite IH]. Qed.

Lemma append_assoc (a b c : string) : (a +:+ b) +:+ c = a +:+ (b +:+ c).
Proof. induction a as [|x a IH]; simpl; [done | by rewrite IH]. Qed.

Lemma length_append (a b : string) :
  String.length (a +:+ b) = String.length a + String.length b.
Proof. induction a as [|x a IH]; simpl; [done | by rewrite IH]. Qed.

Lemma append_inv_l (a b c : string) : a +:+ b = a +:+ c -> b = c.
Proof. induction a as [|x a IH]; simpl; [done | intros [= H]; auto]. Qed.

Lemma strip_prefix_spec (w s t : string) :
  strip_prefix w s = Some t <-> s = w +:+ t.
Proof.
  revert s. induction w as [|a w IH]; intros s; simpl.
  - split; [by intros [= ->] | by intros ->].
  - destruct s as [|b s]; [by split|].
    destruct (Ascii.eqb_spec a b) as [->|Hne].
    + rewrite IH. split; [by intros -> | by intros [= ->]].
    + split; [done | intros [= ? ?]; congruence].
Qed.

Lemma strip_prefix_append (w t : string) : strip_prefix w (w +:+ t) = Some t.
Proof. by apply strip_prefix_spec. Qed.

Lemma strip_prefix_self (w : string) : strip_prefix w w = Some "".
Proof. apply strip_prefix_spec. by rewrite append_nil_r. Qed.

Lemma exists_suffix_spec (P : string -> bool) (s : string) :
  exists_suffix P s = true <-> exists p t, s = p +:+ t /\ P t = true.
Proof.
  induction s as [|c s IH]; simpl.
  - rewrite orb_false_r. split.
    + intros H. by exists "", "".
    + intros (p & t & Heq & H). destruct p; simpl in Heq; [by subst|done].
  - rewrite orb_true_iff, IH. split.
    + intros [H|(p & t & -> & H)].
      * by exists "", (String c s).
      * by exists (String c p), t.
    + intros (p & t & Heq & H). destruct p as [|x p]; simpl in Heq.
      * left. by subst.
      * right. injection Heq as -> ->. by exists p, t.
Qed.

Lemma endswith_spec (s suffix : string) :
  endswith s suffix = true <-> exists p, s = p +:+ suffix.
Proof.
  unfold endswith. rewrite exists_suffix_spec. split.
  - intros (p & t & -> & H). apply String.eqb_eq in H as ->. by exists p.
  - intros (p & ->). exists p, suffix. split; [done | apply String.eqb_refl].
Qed.

Lemma no_newline_append (a b : string) :
  no_newline (a +:+ b) = no_newline a && no_newline b.
Proof.
  induction a as [|x a IH]; simpl; [done|].
  by rewrite IH, andb_assoc.
Qed.

Lemma in_list_spec (x : string) (l : list string) :
  in_list x l = true <-> In x l.
Proof.
  unfold in_list. rewrite existsb_exists. split.
  - intros (y & Hy & Heq). by apply String.eqb_eq in Heq as ->.
  - intros H. exists x. split; [done | apply String.eqb_refl].
Qed.

End string_facts.

(** ** Facts about the matcher *)

Section matcher_facts.

Implicit Types (k : nat -> string -> bool) (r : regex).

Lemma at_end_spec (s : string) : at_end s = true <-> s = "" \/ s = nl.
Proof.
  destruct s as [|c [|d s]]; simpl.
  - split; [by left | done].
  - destruct (Ascii.eqb_spec c newline) as [->|Hne].
    + split; [by right | done].
    + split; [done | intros [?|[= ?]]; done].
  - split; [done | intros [?|?]; done].
Qed.

Lemma at_end_no_newline (s : string) :
  no_newline s = true -> at_end s = String.eqb s "".
Proof.
  destruct s as [|c [|d s]]; simpl; [done | | done].
  by destruct (Ascii.eqb c newline).
Qed.

(** A run of literal characters matches exactly that prefix. *)
Lemma run_lits (w : string) r pos s k :
  run (lits w r) pos s k
  = match strip_prefix w s with
    | Some t => run r (pos + String.length w) t k
    | None => false
    end.
Proof.
  revert pos s. induction w as [|a w IH]; intros pos s; simpl.
  - by rewrite Nat.add_0_r.
  - destruct s as [|b s]; [done|].
    destruct (Ascii.eqb a b); simpl; [|done].
    rewrite IH. by rewrite Nat.add_succ_r.
Qed.

(** [.*] takes any line-feed-free prefix. *)
Lemma star_Dot_spec pos s k :
  star Dot pos s k = true
  <-> exists p t, s = p +:+ t /\ no_newline p = true
                  /\ k (pos + String.length p) t = true.
Proof.
  revert pos. induction s as [|c s IH]; intros pos; simpl.
  - split.
    + intros H. exists "", "". by rewrite Nat.add_0_r.
    + intros (p & t & Heq & _ & H).
      destruct p; simpl in Heq; [|done]. subst t.
      by rewrite Nat.add_0_r in H.
  - rewrite orb_true_iff, andb_true_iff, IH. split.
    + intros [[Hc (p & t & -> & Hp & H)]|H].
      * exists (String c p), t. simpl. rewrite Hc, Hp.
        by rewrite Nat.add_succ_r.
      * exists "", (String c s). by rewrite Nat.add_0_r.
    + intros (p & t & Heq & Hp & H). destruct p as [|x p]; simpl in *.
      * right. subst t. by rewrite Nat.add_0_r in H.
      * left. injection Heq as -> ->. apply andb_true_iff in Hp as [Hx Hp].
        split; [done|]. exists p, t. by rewrite Nat.add_succ_r in H.
Qed.

(** [^w$]: the name is [w], or [w] and a final line feed. *)
Lemma anchored_literal (w name : string) :
  is_match (Cat Caret (lits w (Cat Dollar Eps))) name = true
  <-> name = w \/ name = w +:+ nl.
Proof.
  unfold is_match. simpl. rewrite run_lits.
  destruct (strip_prefix w name) as [t|] eqn:Hw; simpl.
  - apply strip_prefix_spec in Hw as ->. rewrite andb_true_r, at_end_spec.
    split; (intros [H|H]; [left|right]).
    + subst t. by rewrite append_nil_r.
    + by subst t.
    + rewrite <- (append_nil_r w) in H at 2. by apply append_inv_l in H.
    + by apply append_inv_l in H.
  - split; [done|]. intros [->| ->].
    + rewrite <- (append_nil_r w) in Hw at 2.
      by rewrite strip_prefix_append in Hw.
    + by rewrite strip_prefix_append in Hw.
Qed.

(** [^w]: the name starts with [w]. *)
Lemma prefix_literal (w name : string) :
  is_match (Cat Caret (lits w Eps)) name = startswith name w.
Proof.
  unfold is_match, startswith. simpl. rewrite run_lits.
  by destruct (strip_prefix w name).
Qed.

End matcher_facts.

(** ** Ignored directories *)

Lemma is_ignored_directory_matches (name : string) :
  is_ignored_directory name = true
  <-> exists d, In d ignored_directory_names
                /\ (name = d \/ name = d +:+ nl).
Proof.
  unfold is_ignored_directory, matches_any, _IGNORE_DIR_PATTERNS.
  cbn [existsb]. rewrite !orb_true_iff, !anchored_literal. split.
  - intros [H|[H|[H|[H|H]]]]; [| | | |done].
    + exists ".git". cbn. tauto.
    + exists ".hg". cbn. tauto.
    + exists "LICENSES". cbn. tauto.
    + exists ".reuse". cbn. tauto.
  - intros (d & Hd & H). cbn in Hd.
    destruct Hd as [<-|[<-|[<-|[<-|[]]]]]; tauto.
Qed.

(** On names without a line feed the table decides exact membership. *)
Lemma is_ignored_directory_exact (name : string) :
  no_newline name = true ->
  is_ignored_directory name = spec_is_ignored_directory name.
Proof.
  intros Hnl. apply Bool.eq_iff_eq_true.
  rewrite is_ignored_directory_matches.
  unfold spec_is_ignored_directory. rewrite in_list_spec. split.
  - intros (d & Hd & [->| ->]); [done|].
    rewrite no_newline_append in Hnl. cbn in Hnl.
    by rewrite andb_false_r in Hnl.
  - intros H. exists name. by split; [|left].
Qed.

Lemma is_ignored_parent_for_subprojects_exact (name : string) :
  no_newline name = true ->
  is_ignored_parent_for_subprojects name = String.eqb name "subprojects".
Proof.
  intros Hnl. apply Bool.eq_iff_eq_true.
  unfold is_ignored_parent_for_subprojects, matches_any.
  unfold _IGNORE_MESON_PARENT_DIR_PATTERNS. cbn [existsb].
  rewrite orb_false_r, anchored_literal, String.eqb_eq.
  split; [|by left]. intros [->| ->]; [done|]. discriminate Hnl.
Qed.

(** C7 (the code departs from the claim).  A directory name made of
    [.git] and one final line feed is reported as ignored although it is
    none of the four names; the two scenarios of the claim hold. *)
Theorem is_ignored_directory_final_newline :
  is_ignored_directory (".git" +:+ nl) = true
  /\ spec_is_ignored_directory (".git" +:+ nl) = false
  /\ is_ignored_directory ".git" = true
  /\ is_ignored_directory "src" = false.
Proof. repeat split; vm_compute; reflexivity. Qed.

(** ** SPDX metadata files *)

Section run_equations.

Implicit Types (k : nat -> string -> bool) (r : regex).

Lemma run_Cat r1 r2 pos s k :
  run (Cat r1 r2) pos s k = run r1 pos s (fun p t => run r2 p t k).
Proof. reflexivity. Qed.

Lemma run_Alt r1 r2 pos s k :
  run (Alt r1 r2) pos s k = run r1 pos s k || run r2 pos s k.
Proof. reflexivity. Qed.

Lemma run_Opt r pos s k :
  run (Opt r) pos s k = run r pos s k || k pos s.
Proof. reflexivity. Qed.

Lemma run_Lit c pos s k :
  run (One (Lit c)) pos s k
  = match strip_prefix (String c "") s with
    | Some t => k (S pos) t
    | None => false
    end.
Proof.
  destruct s as [|b s]; cbn; [done|]. by destruct (Ascii.eqb c b).
Qed.

(** The end of a line-feed-free subject: [$] then nothing. *)
Lemma run_end pos s :
  no_newline s = true ->
  run (Cat Dollar Eps) pos s (fun _ _ => true) = String.eqb s "".
Proof. intros H. cbn. by rewrite andb_true_r, at_end_no_newline. Qed.

End run_equations.

(** [.*w$] on a name without line feed: the name ends in [w]. *)
Lemma suffix_literal (w name : string) :
  no_newline name = true ->
  is_match (Cat (Star Dot) (lits w (Cat Dollar Eps))) name = endswith name w.
Proof.
  intros Hnl. apply Bool.eq_iff_eq_true.
  unfold is_match. rewrite run_Cat. cbn [run].
  rewrite star_Dot_spec, endswith_spec. split.
  - intros (p & t & -> & Hp & H). rewrite run_lits in H.
    destruct (strip_prefix w t) as [u|] eqn:Hw; [|done].
    apply strip_prefix_spec in Hw as ->.
    rewrite !no_newline_append, !andb_true_iff in Hnl.
    rewrite run_end in H by tauto. apply String.eqb_eq in H as ->.
    exists p. by rewrite append_nil_r.
  - intros (p & ->). exists p, w.
    rewrite no_newline_append, andb_true_iff in Hnl.
    split; [done|]. split; [tauto|].
    by rewrite run_lits, strip_prefix_self, run_end.
Qed.

(** What [(rdf|json|xml|ya?ml)] consumes. *)
Lemma run_spdx_format_group pos s (k : nat -> string -> bool) :
  run spdx_format_group pos s k = true
  <-> exists e t, In e spdx_extensions /\ s = e +:+ t
                  /\ k (pos + String.length e) t = true.
Proof.
  unfold spdx_format_group. rewrite !run_Alt, !run_lits, !orb_true_iff.
  split.
  - intros [H|[H|[H|H]]].
    + destruct (strip_prefix "rdf" s) as [t|] eqn:E; [|done].
      apply strip_prefix_spec in E. exists "rdf", t. cbn. tauto.
    + destruct (strip_prefix "json" s) as [t|] eqn:E; [|done].
      apply strip_prefix_spec in E. exists "json", t. cbn. tauto.
    + destruct (strip_prefix "xml" s) as [t|] eqn:E; [|done].
      apply strip_prefix_spec in E. exists "xml", t. cbn. tauto.
    + destruct (strip_prefix "y" s) as [t|] eqn:E; [|done].
      apply strip_prefix_spec in E as ->.
      rewrite run_Cat, run_Opt, run_Lit, run_lits in H.
      apply orb_true_iff in H as [H|H].
      * destruct (strip_prefix "a" t) as [u|] eqn:E; [|done].
        apply strip_prefix_spec in E as ->. rewrite run_lits in H.
        destruct (strip_prefix "ml" u) as [v|] eqn:E; [|done].
        apply strip_prefix_spec in E as ->.
        exists "yaml", v. cbn in *.
        replace (pos + 4) with (S (pos + 1) + 2) by lia. tauto.
      * destruct (strip_prefix "ml" t) as [v|] eqn:E; [|done].
        apply strip_prefix_spec in E as ->.
        exists "yml", v. cbn in *.
        replace (pos + 3) with (pos + 1 + 2) by lia. tauto.
  - intros (e & t & He & -> & H). cbn in He.
    destruct He as [<-|[<-|[<-|[<-|[<-|[]]]]]]; cbn in H.
    + left. by rewrite strip_prefix_append.
    + right; left. by rewrite strip_prefix_append.
    + do 2 right; left. by rewrite strip_prefix_append.
    + do 3 right. change ("yml" +:+ t) with ("y" +:+ "ml" +:+ t).
      rewrite strip_prefix_append, run_Cat, run_Opt, run_lits.
      rewrite strip_prefix_append. apply orb_true_iff. right. cbn.
      by replace (pos + 1 + 2) with (pos + 3) by lia.
    + do 3 right. change ("yaml" +:+ t) with ("y" +:+ "a" +:+ "ml" +:+ t).
      rewrite strip_prefix_append, run_Cat, run_Opt, run_Lit.
      rewrite strip_prefix_append, run_lits, strip_prefix_append. cbn.
      apply orb_true_iff. left.
      by replace (S (pos + 1 + 2)) with (pos + 4) by lia.
Qed.

Lemma run_One_cons (a : atom) pos c s (k : nat -> string -> bool) :
  run (One a) pos (String c s) k = atom_ok a c && k (S pos) s.
Proof. reflexivity. Qed.

(** The second SPDX pattern on a name without line feed: [.spdx], one
    more character, and one of the five extensions, at the end. *)
Lemma spdx_format_match (name : string) :
  no_newline name = true ->
  is_match
    (Cat (Star Dot)
       (lits ".spdx" (Cat (One Dot) (Cat spdx_format_group (Cat Dollar Eps)))))
    name = true
  <-> exists p c e, name = p +:+ ".spdx" +:+ String c e
                    /\ In e spdx_extensions.
Proof.
  intros Hnl. unfold is_match. rewrite run_Cat. cbn [run].
  rewrite star_Dot_spec. split.
  - intros (p & t & -> & Hp & H). rewrite run_lits in H.
    destruct (strip_prefix ".spdx" t) as [u|] eqn:E; [|done].
    apply strip_prefix_spec in E as ->.
    rewrite run_Cat in H. destruct u as [|c v]; [done|].
    rewrite run_One_cons in H. apply andb_true_iff in H as [_ H].
    rewrite run_Cat in H. apply run_spdx_format_group in H.
    destruct H as (e & w & He & -> & H).
    rewrite !no_newline_append in Hnl. cbn [no_newline] in Hnl.
    rewrite no_newline_append, !andb_true_iff in Hnl.
    rewrite run_end in H by tauto. apply String.eqb_eq in H as ->.
    exists p, c, e. by rewrite append_nil_r.
  - intros (p & c & e & -> & He).
    rewrite !no_newline_append in Hnl. cbn [no_newline] in Hnl.
    rewrite !andb_true_iff in Hnl. destruct Hnl as (Hp & _ & Hc & Hne).
    exists p, (".spdx" +:+ String c e). split; [done|]. split; [done|].
    rewrite run_lits, strip_prefix_append, run_Cat, run_One_cons.
    apply andb_true_iff. split; [done|].
    rewrite run_Cat. apply run_spdx_format_group.
    exists e, "". split; [done|]. split; [by rewrite append_nil_r|].
    by rewrite run_end.
Qed.

(** C6 (counterexample).  An upper-case extension is not recognised: the
    patterns are compiled without [re.IGNORECASE]. *)
Lemma is_spdx_metadata_file_upper_case :
  ~ (is_spdx_metadata_file "a.spdx.JSON" = true
     <-> spec_is_spdx_metadata_file "a.spdx.JSON" = true).
Proof.
  intros [_ H].
  assert (Hcode : is_spdx_metadata_file "a.spdx.JSON" = false)
    by (vm_compute; reflexivity).
  rewrite H in Hcode; [discriminate | vm_compute; reflexivity].
Qed.

(** C6 (amended).  For every name without a line feed in which [.spdx] is
    not separated from a final extension by a character other than a dot,
    [is_spdx_metadata_file] holds exactly when the name ends in [.spdx] or
    in [.spdx.] followed by one of rdf, json, xml, yml, yaml spelt in
    lower case. *)
Theorem is_spdx_metadata_file_exact_case (name : string) :
  no_newline name = true ->
  spdx_separator_not_dot name = false ->
  is_spdx_metadata_file name = true
  <-> spec_is_spdx_metadata_file_exact name = true.
Proof.
  intros Hnl Hsep.
  unfold is_spdx_metadata_file, matches_any, _IGNORE_SPDX_PATTERNS.
  unfold spec_is_spdx_metadata_file_exact. cbn [existsb].
  rewrite orb_false_r, !orb_true_iff, suffix_literal by done.
  rewrite spdx_format_match by done. rewrite existsb_exists.
  apply or_iff_compat_l. split.
  - intros (p & c & e & -> & He). exists e. split; [done|].
    destruct (Ascii.eqb_spec c ".") as [->|Hc].
    + apply endswith_spec. exists p. reflexivity.
    + exfalso. apply not_true_iff_false in Hsep. apply Hsep.
      apply exists_suffix_spec. exists p, (".spdx" +:+ String c e).
      split; [done|]. rewrite strip_prefix_append.
      apply andb_true_iff. split.
      * by destruct (Ascii.eqb_spec c ".").
      * by apply in_list_spec.
  - intros (e & He & H). apply endswith_spec in H as [p ->].
    by exists p, "."%char, e.
Qed.

Lemma is_spdx_metadata_file_exact_case_witness :
  no_newline "notice.spdx.json" = true
  /\ spdx_separator_not_dot "notice.spdx.json" = false
  /\ (is_spdx_metadata_file "notice.spdx.json" = true
      <-> spec_is_spdx_metadata_file_exact "notice.spdx.json" = true).
Proof.
  split; [reflexivity|]. split; [reflexivity|].
  apply (is_spdx_metadata_file_exact_case "notice.spdx.json"); reflexivity.
Defined.

(** ** Ignored files *)

Section legacy_exceptions.

Lemma strip_prefix_app (a b s : string) :
  strip_prefix (a +:+ b) s
  = match strip_prefix a s with
    | Some t => strip_prefix b t
    | None => None
    end.
Proof.
  revert s. induction a as [|x a IH]; intros s; simpl; [done|].
  destruct s as [|y s]; [done|]. by destruct (Ascii.eqb x y).
Qed.

Lemma eqb_strip_prefix (name w : string) :
  String.eqb name w
  = match strip_prefix w name with
    | Some t => String.eqb t ""
    | None => false
    end.
Proof.
  revert name. induction w as [|x w IH]; intros [|y name]; simpl; try done.
  rewrite Ascii.eqb_sym. destruct (Ascii.eqb x y); [apply IH | done].
Qed.

Lemma legacy_exception_strip (base name : string) :
  legacy_exception base name
  = match strip_prefix base name with
    | Some t => optional_extension t
    | None => false
    end.
Proof.
  unfold legacy_exception, optional_extension.
  rewrite eqb_strip_prefix, strip_prefix_app.
  by destruct (strip_prefix base name).
Qed.

Lemma run_Caret pos s (k : nat -> string -> bool) :
  run Caret pos s k = Nat.eqb pos 0 && k pos s.
Proof. reflexivity. Qed.

(** [(\..+)?$] on what is left of a name without line feed. *)
Lemma run_dot_extension_end pos (t : string) :
  no_newline t = true ->
  run (Cat dot_extension (Cat Dollar Eps)) pos t (fun _ _ => true)
  = optional_extension t.
Proof.
  intros Hnl. unfold dot_extension, optional_extension.
  rewrite run_Cat, run_Opt, run_lits. cbv beta.
  rewrite run_end by done. rewrite orb_comm. f_equal.
  destruct (strip_prefix "." t) as [u|] eqn:E; [|done].
  apply strip_prefix_spec in E as ->.
  rewrite no_newline_append in Hnl. apply andb_true_iff in Hnl as [_ Hu].
  destruct u as [|c u]; [done|]. cbn [no_newline] in Hu.
  apply andb_true_iff in Hu as [Hc Hu].
  rewrite run_Cat. cbn [run atom_ok]. rewrite Hc. cbn [andb String.eqb negb].
  apply star_Dot_spec. exists u, "". rewrite append_nil_r.
  split; [done|]. by split.
Qed.

Lemma anchored_literal_exact (w name : string) :
  no_newline name = true ->
  is_match (Cat Caret (lits w (Cat Dollar Eps))) name = String.eqb name w.
Proof.
  intros Hnl. apply Bool.eq_iff_eq_true.
  rewrite anchored_literal, String.eqb_eq. split; [|by left].
  intros [->| ->]; [done|]. rewrite no_newline_append in Hnl.
  cbn in Hnl. by rewrite andb_false_r in Hnl.
Qed.

(** [^SHL-2.1(\..+)?$] where the character after [SHL-2] is a dot. *)
Lemma SHL_pattern (name : string) :
  no_newline name = true ->
  legacy_separator_not_dot name = false ->
  is_match
    (Cat Caret
       (lits "SHL-2"
          (Cat (One Dot) (lits "1" (Cat dot_extension (Cat Dollar Eps))))))
    name
  = legacy_exception "SHL-2.1" name.
Proof.
  intros Hnl Hsep. unfold is_match.
  rewrite run_Cat, run_Caret, run_lits, legacy_exception_strip.
  cbn [Nat.eqb andb].
  change "SHL-2.1" with ("SHL-2" +:+ "." +:+ "1").
  rewrite !strip_prefix_app. unfold legacy_separator_not_dot in Hsep.
  destruct (strip_prefix "SHL-2" name) as [t|] eqn:E; [|done].
  apply strip_prefix_spec in E. subst name.
  rewrite no_newline_append in Hnl. apply andb_true_iff in Hnl as [_ Hnl].
  rewrite strip_prefix_app.
  destruct t as [|c t]; [reflexivity|]. cbn in Hsep.
  apply negb_false_iff, Ascii.eqb_eq in Hsep as ->.
  rewrite run_Cat, run_One_cons, run_lits. cbn [atom_ok andb].
  cbn [no_newline] in Hnl. apply andb_true_iff in Hnl as [_ Hnl].
  change (strip_prefix "." (String "." t)) with (Some t).
  destruct (strip_prefix "1" t) as [u|] eqn:E; [|done].
  apply strip_prefix_spec in E as ->. cbn [negb Ascii.eqb].
  rewrite no_newline_append in Hnl. apply andb_true_iff in Hnl as [_ Hnl].
  by apply run_dot_extension_end.
Qed.

(** [^CAL-1.0(-Combined-Work-Exception)?(\..+)?$] where the character
    after [CAL-1] is a dot. *)
Lemma CAL_pattern (name : string) :
  no_newline name = true ->
  legacy_separator_not_dot name = false ->
  is_match
    (Cat Caret
       (lits "CAL-1"
          (Cat (One Dot)
             (lits "0"
                (Cat (Opt (lits "-Combined-Work-Exception" Eps))
                   (Cat dot_extension (Cat Dollar Eps)))))))
    name
  = legacy_exception "CAL-1.0" name
    || legacy_exception "CAL-1.0-Combined-Work-Exception" name.
Proof.
  intros Hnl Hsep. unfold is_match.
  rewrite run_Cat, run_Caret, run_lits, !legacy_exception_strip.
  cbn [Nat.eqb andb].
  change "CAL-1.0-Combined-Work-Exception"
    with ("CAL-1" +:+ "." +:+ "0" +:+ "-Combined-Work-Exception").
  change "CAL-1.0" with ("CAL-1" +:+ "." +:+ "0").
  rewrite !strip_prefix_app. unfold legacy_separator_not_dot in Hsep.
  destruct (strip_prefix "CAL-1" name) as [t|] eqn:E; [|reflexivity].
  apply strip_prefix_spec in E. subst name.
  rewrite no_newline_append in Hnl. apply andb_true_iff in Hnl as [_ Hnl].
  rewrite !strip_prefix_app.
  destruct t as [|c t]; [reflexivity|]. cbn in Hsep.
  apply negb_false_iff, Ascii.eqb_eq in Hsep as ->.
  rewrite run_Cat, run_One_cons, run_lits. cbn [atom_ok andb].
  cbn [no_newline] in Hnl. apply andb_true_iff in Hnl as [_ Hnl].
  change (strip_prefix "." (String "." t)) with (Some t).
  cbv beta iota. rewrite strip_prefix_app.
  destruct (strip_prefix "0" t) as [u|] eqn:E; [|reflexivity].
  apply strip_prefix_spec in E as ->. cbn [negb Ascii.eqb].
  rewrite no_newline_append in Hnl. apply andb_true_iff in Hnl as [_ Hnl].
  rewrite run_Cat, run_Opt, run_lits, orb_comm. cbv beta.
  rewrite run_dot_extension_end by done. f_equal.
  destruct (strip_prefix "-Combined-Work-Exception" u) as [v|] eqn:E;
    [|reflexivity].
  apply strip_prefix_spec in E as ->. cbn [run].
  rewrite no_newline_append in Hnl. apply andb_true_iff in Hnl as [_ Hnl].
  by apply run_dot_extension_end.
Qed.

End legacy_exceptions.

(** Apart from the unescaped dots of the two legacy patterns and from line
    feeds, the table decides what the specification lists. *)
Lemma is_ignored_file_listed (name : string) :
  no_newline name = true ->
  legacy_separator_not_dot name = false ->
  is_ignored_file name = spec_is_ignored_file name.
Proof.
  intros Hnl Hsep.
  unfold is_ignored_file, spec_is_ignored_file, is_spdx_metadata_file.
  unfold matches_any, _IGNORE_FILE_PATTERNS, _IGNORE_FILE_PATTERNS_base.
  cbn [app existsb].
  rewrite !prefix_literal, !anchored_literal_exact, suffix_literal by done.
  rewrite CAL_pattern, SHL_pattern by done.
  unfold _IGNORE_SPDX_PATTERNS. cbn [existsb].
  by rewrite !orb_assoc.
Qed.

(** C5 (the code departs from the claim).  The dot of [CAL-1.0] and of
    [SHL-2.1] is written unescaped in the patterns, so names with any
    other character in its place are ignored too; the scenarios of the
    specification hold. *)
Theorem is_ignored_file_unescaped_dot :
  is_ignored_file "CAL-1x0" = true
  /\ spec_is_ignored_file "CAL-1x0" = false
  /\ is_ignored_file "SHL-2x1.txt" = true
  /\ spec_is_ignored_file "SHL-2x1.txt" = false
  /\ is_ignored_file "LICENSE.txt" = true
  /\ is_ignored_file "mylicense.py" = false
  /\ is_ignored_file "notice.spdx.json" = true
  /\ is_ignored_file "CAL-1.0" = true
  /\ is_ignored_file "foo.license" = true.
Proof. repeat split; vm_compute; reflexivity. Qed.

(** ** The record operations *)

Section ReuseInfo_facts.

Context {Expression : Type} `{!EqDecision Expression}
        `{!Countable Expression}.

Local Abbreviation heap := (@heap Expression _ _).
Local Abbreviation M := (@M Expression _ _).

Implicit Types (h : heap) (self : loc) (r : ReuseInfo)
         (kwargs : gmap string val) (key : string).

Lemma dict_keys r : (__dict__ r).*1 = field_names.
Proof. reflexivity. Qed.

Lemma bind_Return {A B} (m : M A) (f : A -> M B) h h' a :
  m h = (h', Return a) -> bind m f h = f a h'.
Proof. unfold bind. by intros ->. Qed.

Lemma bind_Raise {A B} (m : M A) (f : A -> M B) h h' e :
  m h = (h', Raise e) -> bind m f h = (h', Raise e).
Proof. unfold bind. by intros ->. Qed.

Lemma read_info_Some h self r :
  infos h !! self = Some r -> read_info self h = (h, Return r).
Proof. unfold read_info. by intros ->. Qed.

Lemma read_set_Some h l s :
  sets h !! l = Some s -> read_set l h = (h, Return s).
Proof. unfold read_set. by intros ->. Qed.

(** *** Binding the arguments *)

Lemma self_not_field : "self" ∉ field_names.
Proof.
  unfold field_names. rewrite !elem_of_cons, elem_of_nil.
  intros [H|[H|[H|[H|[H|[]]]]]]; discriminate H.
Qed.

Lemma fields_without_self kwargs :
  dom kwargs ⊆ list_to_set field_names -> "self" ∉ dom kwargs.
Proof.
  intros Hdom Hin. apply Hdom, elem_of_list_to_set in Hin.
  by apply self_not_field.
Qed.

Lemma bind_arguments_passes {A} kwargs (body : M A) :
  "self" ∉ dom kwargs -> bind_arguments kwargs body = body.
Proof.
  intros Hnot. unfold bind_arguments. by rewrite bool_decide_eq_false_2.
Qed.

Lemma bind_arguments_raises {A} kwargs (body : M A) h :
  "self" ∈ dom kwargs -> bind_arguments kwargs body h = (h, Raise TypeError).
Proof.
  intros Hin. unfold bind_arguments. by rewrite bool_decide_eq_true_2.
Qed.

(** *** [_check_nonexistent] *)

Lemma _check_nonexistent_passes h self r kwargs :
  infos h !! self = Some r ->
  dom kwargs ⊆ list_to_set field_names ->
  _check_nonexistent self kwargs h = (h, Return tt).
Proof.
  intros Hself Hdom. unfold _check_nonexistent.
  rewrite bind_arguments_passes by by apply fields_without_self.
  rewrite (bind_Return _ _ _ _ _ (read_info_Some _ _ _ Hself)).
  assert (dom kwargs ∖ list_to_set field_names = (∅ : gset string)) as Hempty
    by set_solver.
  rewrite dict_keys, bool_decide_eq_false_2; [done|]. by intros [].
Qed.

Lemma _check_nonexistent_raises h self r kwargs key :
  infos h !! self = Some r ->
  "self" ∉ dom kwargs ->
  key ∈ dom kwargs -> key ∉ field_names ->
  _check_nonexistent self kwargs h
  = (h, Raise (KeyError (dom kwargs ∖ list_to_set field_names))).
Proof.
  intros Hself Hbound Hin Hnot. unfold _check_nonexistent.
  rewrite bind_arguments_passes by done.
  rewrite (bind_Return _ _ _ _ _ (read_info_Some _ _ _ Hself)).
  rewrite dict_keys, bool_decide_eq_true_2; [done|].
  intros Hempty. assert (key ∈ (∅ : gset string)); [|set_solver].
  rewrite <- Hempty. set_solver.
Qed.

(** *** The constructor *)

Lemma __class___all_arguments v1 v2 v3 v4 v5 h :
  __class__ (all_arguments v1 v2 v3 v4 v5) h
  = new_info (mkReuseInfo v1 v2 v3 v4 v5) h.
Proof.
  unfold __class__, all_arguments.
  rewrite bool_decide_eq_true_2.
  2:{ rewrite !dom_insert_L, dom_empty_L. unfold field_names. set_solver. }
  unfold argument_or_new_set, kwargs_get, bind, ret.
  by simplify_map_eq.
Qed.

(** *** [copy] *)

Lemma copy_runs h self r kwargs :
  infos h !! self = Some r ->
  dom kwargs ⊆ list_to_set field_names ->
  copy self kwargs h = new_info (replaced r kwargs) h.
Proof.
  intros Hself Hdom. unfold copy.
  rewrite bind_arguments_passes by by apply fields_without_self.
  rewrite (bind_Return _ _ _ _ _ (_check_nonexistent_passes _ _ _ _ Hself Hdom)).
  rewrite (bind_Return _ _ _ _ _ (read_info_Some _ _ _ Hself)).
  cbn [__dict__ for_items]. unfold copy_body, bind at 1. cbn [ret].
  apply __class___all_arguments.
Qed.

Lemma getattr_field r key :
  key ∈ field_names -> is_Some (getattr r key).
Proof.
  unfold field_names. rewrite !elem_of_cons, elem_of_nil.
  intros [->|[->|[->|[->|[->|[]]]]]]; by eexists.
Qed.

Lemma item_elem_of key v items : item key items = Some v -> (key, v) ∈ items.
Proof.
  induction items as [|[k w] items IH]; cbn [item]; [done|].
  destruct (String.eqb_spec k key) as [->|_].
  - intros [= ->]. apply list_elem_of_here.
  - intros Hrest. by apply list_elem_of_further, IH.
Qed.

Lemma getattr_cases r key v :
  getattr r key = Some v -> (key, v) ∈ __dict__ r.
Proof. apply item_elem_of. Qed.

Lemma elem_of_getattr r key v :
  (key, v) ∈ __dict__ r -> getattr r key = Some v.
Proof.
  unfold __dict__. rewrite !elem_of_cons, elem_of_nil.
  by intros [[= -> ->]|[[= -> ->]|[[= -> ->]|[[= -> ->]|[[= -> ->]|[]]]]]].
Qed.

Lemma getattr_replaced_absent r kwargs key :
  key ∈ field_names -> kwargs !! key = None ->
  getattr (replaced r kwargs) key = getattr r key.
Proof.
  unfold field_names. rewrite !elem_of_cons, elem_of_nil.
  intros [->|[->|[->|[->|[->|[]]]]]] Hnone;
    unfold getattr, replaced, kwargs_get; cbn; by rewrite Hnone.
Qed.

Lemma getattr_replaced_named r kwargs key value :
  key ∈ field_names -> kwargs !! key = Some value ->
  getattr (replaced r kwargs) key = Some value.
Proof.
  unfold field_names. rewrite !elem_of_cons, elem_of_nil.
  intros [->|[->|[->|[->|[->|[]]]]]] Hsome;
    unfold getattr, replaced, kwargs_get; cbn; by rewrite Hsome.
Qed.

Lemma named_is_field kwargs key value :
  dom kwargs ⊆ list_to_set field_names ->
  kwargs !! key = Some value -> key ∈ field_names.
Proof. intros Hdom Hsome. apply elem_of_dom_2 in Hsome. set_solver. Qed.

(** C1.  With every key of the overrides naming an attribute, [copy]
    returns a new instance (at a location that held none) and leaves the
    set objects alone; the instance carries the receiver's value in every
    attribute that is not named and the override itself, not a union, in
    every attribute that is named. *)
Theorem copy_replaces_named_attributes h self r kwargs :
  infos h !! self = Some r ->
  dom kwargs ⊆ list_to_set field_names ->
  exists new,
    copy self kwargs h
    = (mkHeap (sets h) (infos h ++ [new]), Return (length (infos h)))
    /\ (forall key, key ∈ field_names -> kwargs !! key = None ->
                    getattr new key = getattr r key)
    /\ (forall key value, kwargs !! key = Some value ->
                          getattr new key = Some value).
Proof.
  intros Hself Hdom. exists (replaced r kwargs).
  split; [by apply copy_runs|]. split.
  - intros key Hkey Hnone. by apply getattr_replaced_absent.
  - intros key value Hsome. apply getattr_replaced_named; [|done].
    by eapply named_is_field.
Qed.

(** C3 (amended).  When the overrides hold a key that names no
    attribute, [copy] and [copy_union] fail whatever else the overrides
    hold, the store is left as it was and no instance is produced.  They
    raise [KeyError] when none of the keys is [self]; a key [self]
    collides with the receiver when the arguments are bound, and the call
    raises [TypeError] instead. *)
Theorem unknown_key_raises_KeyError h self r kwargs key :
  infos h !! self = Some r ->
  key ∈ dom kwargs -> key ∉ field_names ->
  ("self" ∉ dom kwargs ->
   copy self kwargs h
   = (h, Raise (KeyError (dom kwargs ∖ list_to_set field_names)))
   /\ copy_union self kwargs h
      = (h, Raise (KeyError (dom kwargs ∖ list_to_set field_names))))
  /\ ("self" ∈ dom kwargs ->
      copy self kwargs h = (h, Raise TypeError)
      /\ copy_union self kwargs h = (h, Raise TypeError)).
Proof.
  intros Hself Hin Hnot. split.
  - intros Hbound.
    pose proof (_check_nonexistent_raises _ _ _ _ _ Hself Hbound Hin Hnot)
      as Hc.
    split; [unfold copy | unfold copy_union];
      rewrite bind_arguments_passes by done;
      by rewrite (bind_Raise _ _ _ _ _ Hc).
  - intros Hbound.
    split; [unfold copy | unfold copy_union];
      by apply bind_arguments_raises.
Qed.

(** *** What the operations do to the store *)

Local Abbreviation grows := (@grows Expression _ _ _).
Local Abbreviation builds := (@builds Expression _ _).

Lemma grows_ret {A} (a : A) : grows (ret a).
Proof. by intros h. Qed.

Lemma grows_raise {A} e : grows (raise (A:=A) e).
Proof. by intros h. Qed.

Lemma grows_read_set l : grows (read_set l).
Proof. by intros h. Qed.

Lemma grows_read_info l : grows (read_info l).
Proof. by intros h. Qed.

Lemma grows_new_set s : grows (new_set s).
Proof. intros h. split; [by apply prefix_app_r | done]. Qed.

Lemma grows_bind {A B} (m : M A) (f : A -> M B) :
  grows m -> (forall a, grows (f a)) -> grows (bind m f).
Proof.
  intros Hm Hf h. unfold bind. destruct (Hm h) as [Hs Hi].
  destruct (m h) as [h1 [a|e|]]; cbn in *; [|done..].
  destruct (Hf a h1) as [Hs' Hi']. split; [by etrans | congruence].
Qed.

Create HintDb store_frame.
#[local] Hint Resolve grows_ret grows_raise grows_read_set grows_read_info
  grows_new_set : store_frame.
#[local] Hint Extern 2 (grows (bind _ _)) =>
  apply grows_bind; [|intros ?] : store_frame.
#[local] Hint Extern 3 (grows (if ?b then _ else _)) =>
  destruct b : store_frame.

Lemma grows_truth v : grows (truth v).
Proof. destruct v; cbn [truth]; auto with store_frame. Qed.

Lemma grows_iterate v : grows (iterate v).
Proof. destruct v; cbn [iterate]; auto with store_frame. Qed.

#[local] Hint Resolve grows_truth grows_iterate : store_frame.

Lemma grows_union_ value other : grows (union_ value other).
Proof. destruct value; cbn [union_]; auto 8 with store_frame. Qed.

Lemma grows_argument_or_new_set kwargs name :
  grows (argument_or_new_set kwargs name).
Proof.
  unfold argument_or_new_set.
  destruct (kwargs !! name); auto with store_frame.
Qed.

Lemma grows_bind_arguments {A} kwargs (body : M A) :
  grows body -> grows (bind_arguments kwargs body).
Proof.
  intros Hbody. unfold bind_arguments.
  case_bool_decide; [apply grows_raise | done].
Qed.

Lemma grows__check_nonexistent self kwargs :
  grows (_check_nonexistent self kwargs).
Proof.
  unfold _check_nonexistent. apply grows_bind_arguments.
  auto with store_frame.
Qed.

Lemma grows_for_items {A} items (body : A -> string -> val -> M A) acc :
  (forall acc key value, grows (body acc key value)) ->
  grows (for_items items body acc).
Proof.
  intros Hbody. revert acc.
  induction items as [|[key value] items IH]; intros acc; cbn [for_items];
    auto with store_frame.
Qed.

#[local] Hint Resolve grows_union_ grows_argument_or_new_set
  grows__check_nonexistent : store_frame.

Lemma builds_new_info r : builds (new_info r).
Proof. intros h. cbn. split; [done|]. split; [done | by exists r]. Qed.

Lemma builds_raise e : builds (raise e).
Proof. by intros h. Qed.

Lemma builds_bind {A} (m : M A) (f : A -> M loc) :
  grows m -> (forall a, builds (f a)) -> builds (bind m f).
Proof.
  intros Hm Hf h. unfold bind. destruct (Hm h) as [Hs Hi].
  destruct (m h) as [h1 [a|e|]]; cbn in *; [|done..].
  destruct (Hf a h1) as [Hs' Hi']. split; [by etrans|].
  by rewrite Hi in Hi'.
Qed.

Lemma builds_bind_arguments kwargs (body : M loc) :
  builds body -> builds (bind_arguments kwargs body).
Proof.
  intros Hbody. unfold bind_arguments.
  case_bool_decide; [apply builds_raise | done].
Qed.

Lemma builds___class__ kwargs : builds (__class__ kwargs).
Proof.
  unfold __class__. case_bool_decide; [|apply builds_raise].
  repeat (apply builds_bind; [auto with store_frame | intros ?]).
  apply builds_new_info.
Qed.

Lemma builds_copy self kwargs : builds (copy self kwargs).
Proof.
  unfold copy. apply builds_bind_arguments.
  repeat (apply builds_bind; [|intros ?]); auto with store_frame.
  - apply grows_for_items. intros. apply grows_ret.
  - apply builds___class__.
Qed.

Lemma builds_copy_union self kwargs : builds (copy_union self kwargs).
Proof.
  unfold copy_union. apply builds_bind_arguments.
  repeat (apply builds_bind; [|intros ?]); auto with store_frame.
  - apply grows_for_items. intros acc key value. unfold copy_union_body.
    apply grows_bind; [destruct (isinstance_set value)|intros []];
      auto with store_frame.
  - apply builds___class__.
Qed.

Lemma builds_untouched (m : M loc) h : builds m -> untouched h (m h).
Proof.
  intros Hm. destruct (Hm h) as [[k Hs] Hi]. split; [|split].
  - intros l r Hl. destruct ((m h).2) as [l'| |].
    + destruct Hi as [_ [r' ->]]. by apply lookup_app_l_Some.
    + by rewrite Hi.
    + by rewrite Hi.
  - intros l s Hl. rewrite Hs. by apply lookup_app_l_Some.
  - intros l Hl. rewrite Hl in Hi. destruct Hi as [-> [r ->]]. split.
    + by apply lookup_ge_None_2.
    + exists r. by apply list_lookup_middle.
Qed.

(** C4.  Whatever the overrides and however the call ends, [copy] and
    [copy_union] leave every instance and every set object of the store
    as it was, the receiver and the sets its attributes refer to among
    them; the instance they return is a new one. *)
Theorem copy_and_copy_union_leave_store_untouched h self kwargs :
  untouched h (copy self kwargs h)
  /\ untouched h (copy_union self kwargs h).
Proof.
  split; apply builds_untouched; [apply builds_copy | apply builds_copy_union].
Qed.

(** *** Truth values *)

Lemma truth_set h l s :
  sets h !! l = Some s ->
  truth (VSet l) h = (h, Return (bool_decide (s ≠ ∅))).
Proof.
  intros Hl. cbn [truth].
  by rewrite (bind_Return _ _ _ _ _ (read_set_Some _ _ _ Hl)).
Qed.

Lemma set_of_Some h v s :
  set_of h v = Some s -> exists l, v = VSet l /\ sets h !! l = Some s.
Proof. destruct v; cbn; [done..|]. intros Hl. by eexists. Qed.

(** C9.  [contains_copyright_or_licensing] answers true exactly when
    [spdx_expressions] or [copyright_lines] is non-empty; with both
    empty it answers false even if [contributor_lines] is not. *)
Theorem contains_copyright_or_licensing_iff h self r a b :
  infos h !! self = Some r ->
  set_of h (spdx_expressions r) = Some a ->
  set_of h (copyright_lines r) = Some b ->
  exists answer,
    contains_copyright_or_licensing self h = (h, Return answer)
    /\ (answer = true <-> a ≠ ∅ \/ b ≠ ∅)
    /\ (forall c, set_of h (contributor_lines r) = Some c -> c ≠ ∅ ->
                  a = ∅ -> b = ∅ -> answer = false).
Proof.
  intros Hself Ha Hb.
  apply set_of_Some in Ha as (la & Ea & Ha).
  apply set_of_Some in Hb as (lb & Eb & Hb).
  unfold contains_copyright_or_licensing.
  rewrite (bind_Return _ _ _ _ _ (read_info_Some _ _ _ Hself)).
  rewrite Ea, Eb, (bind_Return _ _ _ _ _ (truth_set _ _ _ Ha)).
  destruct (decide (a = ∅)) as [->|Hne].
  - rewrite bool_decide_eq_false_2 by (by intros []).
    rewrite (truth_set _ _ _ Hb). eexists. split; [done|].
    rewrite bool_decide_eq_true. split; [tauto|].
    intros c _ _ _ ->. by apply bool_decide_eq_false_2; intros [].
  - rewrite bool_decide_eq_true_2 by done.
    rewrite (truth_set _ _ _ Ha). eexists. split; [done|].
    rewrite bool_decide_eq_true. split; [tauto | done].
Qed.

Lemma any_cons v values h b :
  truth v h = (h, Return b) ->
  any (v :: values) h = if b then (h, Return true) else any values h.
Proof.
  intros Hv. cbn [any]. rewrite (bind_Return _ _ _ _ _ Hv). by destruct b.
Qed.

(** C8 (amended).  For a record whose attributes have their annotated
    types, [__bool__] answers false exactly when the three sets are
    empty, [source_path] is [None] or the empty string, and
    [source_type] is [None]. *)
Theorem __bool___false_iff h self r a b c :
  infos h !! self = Some r ->
  set_of h (spdx_expressions r) = Some a ->
  set_of h (copyright_lines r) = Some b ->
  set_of h (contributor_lines r) = Some c ->
  optional_str (source_path r) = true ->
  optional_source_type (source_type r) = true ->
  exists answer,
    __bool__ self h = (h, Return answer)
    /\ (answer = false
        <-> a = ∅ /\ b = ∅ /\ c = ∅
            /\ (source_path r = VNone \/ source_path r = VStr "")
            /\ source_type r = VNone).
Proof.
  intros Hself Ha Hb Hc Hp Ht.
  apply set_of_Some in Ha as (la & Ea & Ha).
  apply set_of_Some in Hb as (lb & Eb & Hb).
  apply set_of_Some in Hc as (lc & Ec & Hc).
  unfold __bool__.
  rewrite (bind_Return _ _ _ _ _ (read_info_Some _ _ _ Hself)).
  cbn [__dict__ fmap list_fmap snd]. rewrite Ea, Eb, Ec.
  rewrite (any_cons _ _ _ _ (truth_set _ _ _ Ha)).
  case_bool_decide as Da; [eexists; split; [done|]; naive_solver|].
  rewrite (any_cons _ _ _ _ (truth_set _ _ _ Hb)).
  case_bool_decide as Db; [eexists; split; [done|]; naive_solver|].
  rewrite (any_cons _ _ _ _ (truth_set _ _ _ Hc)).
  case_bool_decide as Dc; [eexists; split; [done|]; naive_solver|].
  subst a b c.
  destruct (source_path r) as [|p| |]; try done.
  - destruct (source_type r) as [| |t|]; try done;
      eexists; (split; [reflexivity|]); cbn; naive_solver.
  - destruct p as [|x p].
    + destruct (source_type r) as [| |t|]; try done;
        eexists; (split; [reflexivity|]); cbn; naive_solver.
    + eexists. split; [reflexivity|]. cbn. naive_solver.
Qed.

(** *** One turn of the loop of [copy_union] *)

(** Without a true override the turn is that of [copy]. *)
Lemma copy_union_body_replaces kwargs acc key value h :
  (isinstance_set value = true ->
   truth (kwargs_get kwargs key VNone) h = (h, Return false)) ->
  copy_union_body kwargs acc key value h = copy_body kwargs acc key value h.
Proof.
  intros Hfalse. unfold copy_union_body, copy_body.
  destruct (isinstance_set value).
  - by rewrite (bind_Return _ _ _ _ _ (Hfalse eq_refl)).
  - done.
Qed.

Lemma copy_union_body_absent kwargs acc key value h :
  kwargs !! key = None ->
  copy_union_body kwargs acc key value h
  = (h, Return (<[key := value]> acc)).
Proof.
  intros Hnone. rewrite copy_union_body_replaces.
  - unfold copy_body, kwargs_get. by rewrite Hnone.
  - intros _. unfold kwargs_get. by rewrite Hnone.
Qed.

Lemma union__sets lo o ls s h :
  sets h !! lo = Some o -> sets h !! ls = Some s ->
  union_ (VSet lo) (VSet ls) h
  = (mkHeap (sets h ++ [o ∪ s]) (infos h), Return (VSet (length (sets h)))).
Proof.
  intros Ho Hs. cbn [union_ iterate].
  rewrite (bind_Return _ _ _ _ _ (read_set_Some _ _ _ Ho)).
  by rewrite (bind_Return _ _ _ _ _ (read_set_Some _ _ _ Hs)).
Qed.

(** With a non-empty set as override for a set, the turn allocates the
    union. *)
Lemma copy_union_body_unites kwargs acc key lo o ls s h :
  kwargs !! key = Some (VSet ls) ->
  sets h !! lo = Some o -> sets h !! ls = Some s -> s ≠ ∅ ->
  copy_union_body kwargs acc key (VSet lo) h
  = (mkHeap (sets h ++ [o ∪ s]) (infos h),
     Return (<[key := VSet (length (sets h))]> acc)).
Proof.
  intros Hkey Ho Hs Hne. unfold copy_union_body, kwargs_get.
  rewrite Hkey. cbn [isinstance_set from_option id].
  rewrite (bind_Return _ _ _ _ _ (truth_set _ _ _ Hs)).
  rewrite bool_decide_eq_true_2 by done.
  by rewrite (bind_Return _ _ _ _ _ (union__sets _ _ _ _ _ Ho Hs)).
Qed.

Lemma for_items_replaces kwargs items acc h :
  (forall key value, (key, value) ∈ items -> isinstance_set value = true ->
     truth (kwargs_get kwargs key VNone) h = (h, Return false)) ->
  for_items items (copy_union_body kwargs) acc h
  = for_items items (copy_body kwargs) acc h.
Proof.
  revert acc. induction items as [|[key value] items IH]; intros acc Hfalse.
  - done.
  - cbn [for_items]. unfold bind.
    rewrite copy_union_body_replaces
      by (intros; eapply Hfalse; [apply list_elem_of_here | done]).
    unfold copy_body, ret. apply IH.
    intros key' value' Hin. apply Hfalse. by apply list_elem_of_further.
Qed.

Lemma absent_or_empty_set_false h kwargs key :
  absent_or_empty_set h kwargs key ->
  truth (kwargs_get kwargs key VNone) h = (h, Return false).
Proof.
  unfold kwargs_get. intros [->|(l & -> & Hl)]; [done|].
  cbn [from_option id]. rewrite (truth_set _ _ _ Hl).
  by rewrite bool_decide_eq_false_2 by (by intros []).
Qed.

(** C10.  When every attribute that holds a set has no override or an
    empty set as override, [copy_union] does what [copy] does with the
    same overrides; an empty set given for such an attribute becomes the
    attribute of the new instance, in place of the elements it held. *)
Theorem copy_union_without_nonempty_override h self r kwargs :
  infos h !! self = Some r ->
  dom kwargs ⊆ list_to_set field_names ->
  (forall key value, (key, value) ∈ __dict__ r ->
     isinstance_set value = true -> absent_or_empty_set h kwargs key) ->
  copy_union self kwargs h = copy self kwargs h
  /\ exists new,
       copy self kwargs h
       = (mkHeap (sets h) (infos h ++ [new]), Return (length (infos h)))
       /\ forall key l, kwargs !! key = Some (VSet l) ->
                        sets h !! l = Some ∅ ->
                        getattr new key = Some (VSet l)
                        /\ attribute_set
                             (mkHeap (sets h) (infos h ++ [new]))
                             (length (infos h)) key = Some ∅.
Proof.
  intros Hself Hdom Habs. split.
  - unfold copy_union, copy.
    rewrite !bind_arguments_passes by by apply fields_without_self.
    rewrite !(bind_Return _ _ _ _ _
                (_check_nonexistent_passes _ _ _ _ Hself Hdom)).
    rewrite !(bind_Return _ _ _ _ _ (read_info_Some _ _ _ Hself)).
    unfold bind. rewrite for_items_replaces; [done|].
    intros key value Hin Hset.
    by apply absent_or_empty_set_false, (Habs key value).
  - exists (replaced r kwargs). split; [by apply copy_runs|].
    intros key l Hkey Hl.
    assert (Hattr : getattr (replaced r kwargs) key = Some (VSet l)).
    { apply getattr_replaced_named; [by eapply named_is_field | done]. }
    split; [done|].
    unfold attribute_set. cbn [infos sets].
    rewrite list_lookup_middle by done. cbn [mbind option_bind].
    by rewrite Hattr.
Qed.

(** *** The loop of [copy_union] *)

Lemma set_override_mono h h' kwargs key value :
  sets h `prefix_of` sets h' ->
  set_override h kwargs key value -> set_override h' kwargs key value.
Proof.
  intros [k Hk] [?|[[s Hs] (l & ? & [x Hx])]]; [by left|right]. split.
  - destruct value; try done. cbn in *. exists s. rewrite Hk.
    by apply lookup_app_l_Some.
  - exists l. split; [done|]. exists x. rewrite Hk.
    by apply lookup_app_l_Some.
Qed.

(** One turn, whatever the attribute holds. *)
Lemma copy_union_body_turn kwargs acc key value h :
  (isinstance_set value = true -> set_override h kwargs key value) ->
  exists h' v',
    copy_union_body kwargs acc key value h
    = (h', Return (<[key := v']> acc))
    /\ sets h `prefix_of` sets h' /\ infos h' = infos h
    /\ stored h h' kwargs key value v'.
Proof.
  intros Hov. destruct (isinstance_set value) eqn:Hset.
  - destruct value as [| | |lo]; try done.
    destruct (Hov eq_refl) as [Hnone|[[o Ho] (ls & Hls & [s Hs])]].
    + exists h, (VSet lo).
      rewrite copy_union_body_absent by done.
      do 3 (split; [done|]). split; [|done].
      intros ? ? ? ? _ _ Hk. congruence.
    + cbn in Ho. destruct (decide (s = ∅)) as [->|Hne].
      * exists h, (VSet ls). rewrite copy_union_body_replaces.
        2:{ intros _. unfold kwargs_get. rewrite Hls. cbn [from_option id].
            rewrite (truth_set _ _ _ Hs).
            by rewrite bool_decide_eq_false_2 by (by intros []). }
        unfold copy_body, kwargs_get. rewrite Hls.
        do 3 (split; [done|]). split; [|done].
        intros ? ? ? s' _ _ Hk Hs' Hne. congruence.
      * exists (mkHeap (sets h ++ [o ∪ s]) (infos h)),
          (VSet (length (sets h))).
        rewrite (copy_union_body_unites _ _ _ _ _ _ _ _ Hls Ho Hs Hne).
        split; [done|]. split; [by apply prefix_app_r|].
        split; [done|]. split; [|done]. cbn [sets].
        intros lo' o' ls' s' [= <-] Ho' Hk' Hs' _.
        rewrite Hls in Hk'. injection Hk' as <-.
        rewrite Ho in Ho'. rewrite Hs in Hs'.
        injection Ho' as <-. injection Hs' as <-.
        eexists. split; [done|]. by apply list_lookup_middle.
  - exists h, (kwargs_get kwargs key value).
    rewrite copy_union_body_replaces by (by rewrite Hset).
    do 3 (split; [done|]). split; [|done].
    intros ? ? ? ? ->. done.
Qed.

Lemma stored_mono h h1 h' kwargs key value v' :
  sets h1 `prefix_of` sets h' ->
  stored h h1 kwargs key value v' -> stored h h' kwargs key value v'.
Proof.
  intros [k Hk] [Hu Hr]. split; [|done].
  intros lo o ls s Hv Ho Hls Hs Hne.
  destruct (Hu lo o ls s Hv Ho Hls Hs Hne) as (n & -> & Hn).
  exists n. split; [done|]. rewrite Hk. by apply lookup_app_l_Some.
Qed.

Lemma stored_start h h1 h' kwargs key value v' :
  sets h `prefix_of` sets h1 ->
  stored h1 h' kwargs key value v' -> stored h h' kwargs key value v'.
Proof.
  intros [k Hk] [Hu Hr]. split; [|done].
  intros lo o ls s Hv Ho Hls Hs Hne.
  apply (Hu lo o ls s); try done; rewrite Hk; by apply lookup_app_l_Some.
Qed.

(** The whole loop, by induction on the items that are left. *)
Lemma for_items_copy_union kwargs items acc h :
  NoDup items.*1 ->
  (forall key value, (key, value) ∈ items ->
     isinstance_set value = true -> set_override h kwargs key value) ->
  exists h' acc',
    for_items items (copy_union_body kwargs) acc h = (h', Return acc')
    /\ sets h `prefix_of` sets h' /\ infos h' = infos h
    /\ (forall k, k ∉ items.*1 -> acc' !! k = acc !! k)
    /\ (forall key value, (key, value) ∈ items ->
          exists v', acc' !! key = Some v'
                     /\ stored h h' kwargs key value v').
Proof.
  revert acc h.
  induction items as [|[key value] items IH]; intros acc h Hnd Hov.
  - exists h, acc. do 4 (split; [done|]). intros ? ? Hin.
    by apply elem_of_nil in Hin.
  - cbn [fmap list_fmap fst] in Hnd. apply NoDup_cons in Hnd as [Hkey Hnd].
    destruct (copy_union_body_turn kwargs acc key value h)
      as (h1 & v1 & Hturn & Hpre1 & Hinfo1 & Hstored1).
    { intros Hset. apply Hov; [apply list_elem_of_here | done]. }
    destruct (IH (<[key := v1]> acc) h1 Hnd)
      as (h' & acc' & Hrest & Hpre & Hinfo & Hother & Hitems).
    { intros k v Hin Hset. apply (set_override_mono h); [done|].
      apply Hov; [by apply list_elem_of_further | done]. }
    exists h', acc'. cbn [for_items].
    rewrite (bind_Return _ _ _ _ _ Hturn). split; [done|].
    split; [by etrans|]. split; [congruence|]. split.
    + intros k Hk. cbn [fmap list_fmap fst] in Hk.
      apply not_elem_of_cons in Hk as [Hne Hk].
      rewrite Hother by done. by rewrite lookup_insert_ne.
    + intros k v Hin. apply elem_of_cons in Hin as [[= -> ->]|Hin].
      * exists v1. split.
        -- rewrite Hother by done. by rewrite lookup_insert_eq.
        -- by apply (stored_mono _ h1).
      * destruct (Hitems k v Hin) as (v' & Hv' & Hst).
        exists v'. split; [done|]. by apply (stored_start _ h1).
Qed.

Lemma NoDup_field_names : NoDup field_names.
Proof. unfold field_names. repeat constructor; set_solver. Qed.

Lemma __class___every_argument kwargs h :
  dom kwargs ⊆ list_to_set field_names ->
  (forall key, key ∈ field_names -> is_Some (kwargs !! key)) ->
  __class__ kwargs h
  = new_info
      {| spdx_expressions := kwargs_get kwargs "spdx_expressions" VNone;
         copyright_lines := kwargs_get kwargs "copyright_lines" VNone;
         contributor_lines := kwargs_get kwargs "contributor_lines" VNone;
         source_path := kwargs_get kwargs "source_path" VNone;
         source_type := kwargs_get kwargs "source_type" VNone |} h.
Proof.
  intros Hdom Hall. unfold __class__.
  rewrite bool_decide_eq_true_2 by done.
  destruct (Hall "spdx_expressions") as [v1 H1]; [set_solver|].
  destruct (Hall "copyright_lines") as [v2 H2]; [set_solver|].
  destruct (Hall "contributor_lines") as [v3 H3]; [set_solver|].
  unfold argument_or_new_set, kwargs_get, bind, ret.
  by rewrite H1, H2, H3.
Qed.

(** [copy_union] when every attribute that holds a set is given a set or
    nothing: it returns a new instance, each attribute of which is what
    the loop stored for it. *)
Lemma copy_union_runs h self r kwargs :
  infos h !! self = Some r ->
  dom kwargs ⊆ list_to_set field_names ->
  (forall key value, (key, value) ∈ __dict__ r ->
     isinstance_set value = true -> set_override h kwargs key value) ->
  exists h1 r1,
    copy_union self kwargs h = (h1, Return (length (infos h)))
    /\ infos h1 = infos h ++ [r1]
    /\ sets h `prefix_of` sets h1
    /\ (forall key value, getattr r key = Some value ->
          exists v', getattr r1 key = Some v'
                     /\ stored h h1 kwargs key value v').
Proof.
  intros Hself Hdom Hov. unfold copy_union.
  rewrite bind_arguments_passes by by apply fields_without_self.
  rewrite (bind_Return _ _ _ _ _
             (_check_nonexistent_passes _ _ _ _ Hself Hdom)).
  rewrite (bind_Return _ _ _ _ _ (read_info_Some _ _ _ Hself)).
  destruct (for_items_copy_union kwargs (__dict__ r) ∅ h)
    as (h' & acc' & Hloop & Hpre & Hinfo & Hother & Hitems);
    [apply NoDup_field_names | done |].
  rewrite (bind_Return _ _ _ _ _ Hloop).
  assert (Hall : forall key, key ∈ field_names -> is_Some (acc' !! key)).
  { intros key Hkey. destruct (getattr_field r key Hkey) as [v Hv].
    destruct (Hitems key v (getattr_cases _ _ _ Hv)) as (v' & Hv' & _).
    by exists v'. }
  assert (Hdom' : dom acc' ⊆ list_to_set field_names).
  { intros key [v Hv]%elem_of_dom. apply elem_of_list_to_set.
    destruct (decide (key ∈ field_names)) as [|Hnot]; [done|].
    rewrite (Hother key Hnot), lookup_empty in Hv. done. }
  rewrite (__class___every_argument _ _ Hdom' Hall).
  eexists _, _. split; [unfold new_info; by rewrite Hinfo|].
  cbn [infos sets]. split; [done|]. split; [done|].
  intros key value Hattr. apply getattr_cases in Hattr.
  destruct (Hitems key value Hattr) as (v' & Hv' & Hst).
  exists v'. split; [|done]. revert Hattr Hv'. unfold __dict__.
  rewrite !elem_of_cons, elem_of_nil.
  intros [[= -> _]|[[= -> _]|[[= -> _]|[[= -> _]|[[= -> _]|[]]]]]] Hv';
    unfold getattr, kwargs_get; cbn; by rewrite Hv'.
Qed.

(** *** [copy_union] with a set to unite *)

Lemma copy_union_unites h self r kwargs key lo o ls s :
  infos h !! self = Some r ->
  dom kwargs ⊆ list_to_set field_names ->
  (forall key' value, (key', value) ∈ __dict__ r ->
     isinstance_set value = true -> set_override h kwargs key' value) ->
  getattr r key = Some (VSet lo) -> sets h !! lo = Some o ->
  kwargs !! key = Some (VSet ls) -> sets h !! ls = Some s -> s ≠ ∅ ->
  exists h1 r1 n,
    copy_union self kwargs h = (h1, Return (length (infos h)))
    /\ infos h1 !! length (infos h) = Some r1
    /\ getattr r1 key = Some (VSet n)
    /\ sets h1 !! n = Some (o ∪ s)
    /\ sets h `prefix_of` sets h1
    /\ attribute_set h1 (length (infos h)) key = Some (o ∪ s).
Proof.
  intros Hself Hdom Hov Hattr Ho Hkey Hs Hne.
  destruct (copy_union_runs h self r kwargs Hself Hdom Hov)
    as (h1 & r1 & Hrun & Hinfo & Hpre & Hattrs).
  destruct (Hattrs key _ Hattr) as (v' & Hv' & Hunited & _).
  destruct (Hunited lo o ls s eq_refl Ho Hkey Hs Hne) as (n & -> & Hn).
  assert (Hl1 : infos h1 !! length (infos h) = Some r1)
    by (rewrite Hinfo; by apply list_lookup_middle).
  exists h1, r1, n. do 5 (split; [done|]).
  unfold attribute_set. rewrite Hl1. cbn [mbind option_bind].
  by rewrite Hv'.
Qed.

(** With one override, only the attribute it names matters. *)
Lemma singleton_set_override h r key lo ls :
  getattr r key = Some (VSet lo) ->
  is_Some (sets h !! lo) -> is_Some (sets h !! ls) ->
  forall key' value, (key', value) ∈ __dict__ r ->
    isinstance_set value = true ->
    set_override h {[ key := VSet ls ]} key' value.
Proof.
  intros Hattr Ho Hs key' value Hin _.
  destruct (decide (key' = key)) as [->|Hne].
  - right. apply elem_of_getattr in Hin.
    rewrite Hattr in Hin. injection Hin as <-.
    split; [done|]. exists ls. by rewrite lookup_singleton_eq.
  - left. by rewrite lookup_singleton_ne.
Qed.

Lemma singleton_dom r key v w :
  getattr r key = Some w ->
  dom ({[ key := v ]} : gmap string val) ⊆ list_to_set field_names.
Proof.
  intros Hattr. rewrite dom_singleton_L. apply getattr_cases in Hattr.
  apply (list_elem_of_fmap_2 fst) in Hattr. set_solver.
Qed.

Lemma copy_union_twice_unites h self r key lo o ls s lt t :
  infos h !! self = Some r ->
  getattr r key = Some (VSet lo) ->
  sets h !! lo = Some o ->
  sets h !! ls = Some s -> s ≠ ∅ ->
  sets h !! lt = Some t -> t ≠ ∅ ->
  exists h2 l2,
    copy_union_twice self key (VSet ls) (VSet lt) h = (h2, Return l2)
    /\ attribute_set h2 l2 key = Some (o ∪ s ∪ t).
Proof.
  intros Hself Hattr Ho Hs Hs' Ht Ht'.
  destruct (copy_union_unites h self r {[ key := VSet ls ]} key lo o ls s)
    as (h1 & r1 & n & Hrun1 & Hl1 & Hattr1 & Hunion & [k Hk] & _);
    [done | by eapply singleton_dom | by eapply singleton_set_override
    | done | done | by rewrite lookup_singleton_eq | done | done |].
  assert (Ht1 : sets h1 !! lt = Some t)
    by (rewrite Hk; by apply lookup_app_l_Some).
  destruct (copy_union_unites h1 (length (infos h)) r1
              {[ key := VSet lt ]} key n (o ∪ s) lt t)
    as (h2 & _ & _ & Hrun2 & _ & _ & _ & _ & Hset);
    [done | by eapply singleton_dom | by eapply singleton_set_override
    | done | done | by rewrite lookup_singleton_eq | done | done |].
  exists h2, (length (infos h1)). split; [|done].
  unfold copy_union_twice. by rewrite (bind_Return _ _ _ _ _ Hrun1).
Qed.

(** C2.  Given a non-empty set for an attribute that holds a set (the
    other overrides for such attributes, if any, being sets as well),
    [copy_union] returns an instance whose attribute is the union of the
    two.  Folding the same set in a second time gives the same union,
    and folding two sets in gives the same union in either order. *)
Theorem copy_union_is_set_union h self r kwargs key lo o ls s :
  infos h !! self = Some r ->
  dom kwargs ⊆ list_to_set field_names ->
  (forall key' value, (key', value) ∈ __dict__ r ->
     isinstance_set value = true -> set_override h kwargs key' value) ->
  getattr r key = Some (VSet lo) -> sets h !! lo = Some o ->
  kwargs !! key = Some (VSet ls) -> sets h !! ls = Some s -> s ≠ ∅ ->
  (exists h1 l1,
      copy_union self kwargs h = (h1, Return l1)
      /\ attribute_set h1 l1 key = Some (o ∪ s))
  /\ (exists h2 l2,
         copy_union_twice self key (VSet ls) (VSet ls) h = (h2, Return l2)
         /\ attribute_set h2 l2 key = Some (o ∪ s))
  /\ (forall lt t, sets h !! lt = Some t -> t ≠ ∅ ->
        exists ha la hb lb u,
          copy_union_twice self key (VSet ls) (VSet lt) h = (ha, Return la)
          /\ copy_union_twice self key (VSet lt) (VSet ls) h
             = (hb, Return lb)
          /\ attribute_set ha la key = Some u
          /\ attribute_set hb lb key = Some u
          /\ u = o ∪ s ∪ t).
Proof.
  intros Hself Hdom Hov Hattr Ho Hkey Hs Hne. split; [|split].
  - destruct (copy_union_unites _ _ _ _ _ _ _ _ _
                Hself Hdom Hov Hattr Ho Hkey Hs Hne)
      as (h1 & _ & _ & Hrun & _ & _ & _ & _ & Hset).
    by eexists _, _.
  - destruct (copy_union_twice_unites _ _ _ _ _ _ _ _ _ _
                Hself Hattr Ho Hs Hne Hs Hne) as (h2 & l2 & Hrun & Hset).
    exists h2, l2. split; [done|]. rewrite Hset. f_equal. set_solver.
  - intros lt t Ht Hnt.
    destruct (copy_union_twice_unites _ _ _ _ _ _ _ _ _ _
                Hself Hattr Ho Hs Hne Ht Hnt) as (ha & la & Hruna & Hseta).
    destruct (copy_union_twice_unites _ _ _ _ _ _ _ _ _ _
                Hself Hattr Ho Ht Hnt Hs Hne) as (hb & lb & Hrunb & Hsetb).
    exists ha, la, hb, lb, (o ∪ s ∪ t). repeat split; [done..|].
    rewrite Hsetb. f_equal. set_solver.
Qed.

End ReuseInfo_facts.

(** ** The operations on sample stores *)

Section samples.

Local Abbreviation override_path :=
  ({[ "source_path" := VStr "bar.py" ]} : gmap string val).

Local Abbreviation docstring_kwargs :=
  (<["copyright_lines" := VSet 3]> override_path : gmap string val).

Lemma docstring_kwargs_dom :
  dom docstring_kwargs ⊆ list_to_set field_names.
Proof. rewrite dom_insert_L, dom_singleton_L. set_solver. Defined.

Lemma docstring_set_override key value :
  (key, value) ∈ __dict__ old -> isinstance_set value = true ->
  set_override docstring_store docstring_kwargs key value.
Proof.
  unfold __dict__. rewrite !elem_of_cons, elem_of_nil.
  intros [[= -> ->]|[[= -> ->]|[[= -> ->]|[[= -> ->]|[[= -> ->]|[]]]]]] Hset;
    try done; try (by left).
  right. split; [by eexists|]. exists 3. split; [done | by eexists].
Defined.

(** The docstring of [copy_union]: a new instance with both copyright
    lines. *)
Example copy_union_docstring :
  exists h new,
    copy_union 0 docstring_kwargs docstring_store = (h, Return new)
    /\ attribute_set h new "copyright_lines"
       = Some ({[ EStr "Jane Doe" ]} ∪ {[ EStr "Mr X" ]}).
Proof.
  destruct (copy_union_unites docstring_store 0 old docstring_kwargs
              "copyright_lines" 0 {[ EStr "Jane Doe" ]} 3 {[ EStr "Mr X" ]})
    as (h & _ & _ & Hrun & _ & _ & _ & _ & Hset);
    [done | apply docstring_kwargs_dom | apply docstring_set_override
    | done | done | done | done | set_solver |].
  exists h, 1. split; [exact Hrun | exact Hset].
Qed.

Lemma copy_replaces_named_attributes_witness :
  infos docstring_store !! 0 = Some old
  /\ dom override_path ⊆ list_to_set field_names
  /\ exists new,
       copy 0 override_path docstring_store
       = (mkHeap (sets docstring_store) [old; new], Return 1)
       /\ getattr new "source_path" = Some (VStr "bar.py")
       /\ getattr new "copyright_lines" = Some (VSet 0).
Proof.
  assert (Hdom : dom override_path ⊆ list_to_set field_names)
    by (rewrite dom_singleton_L; set_solver).
  split; [reflexivity|]. split; [exact Hdom|].
  destruct (copy_replaces_named_attributes docstring_store 0 old
              override_path eq_refl Hdom) as (new & Hrun & Hkeep & Hset).
  exists new. split; [exact Hrun|]. split.
  - apply Hset. reflexivity.
  - assert (Hfield : "copyright_lines" ∈ field_names)
      by apply list_elem_of_further, list_elem_of_here.
    exact (Hkeep "copyright_lines" Hfield
             (lookup_singleton_ne "source_path" "copyright_lines"
                (VStr "bar.py") ltac:(discriminate))).
Defined.

Local Abbreviation unknown_kwargs :=
  (<["license" := VStr "MIT"]> override_path : gmap string val).

Lemma unknown_key_raises_KeyError_witness :
  infos docstring_store !! 0 = Some old
  /\ "license" ∈ dom unknown_kwargs
  /\ ("license" ∉ field_names)
  /\ ("self" ∉ dom unknown_kwargs)
  /\ copy 0 unknown_kwargs docstring_store
     = (docstring_store,
        Raise (KeyError (dom unknown_kwargs ∖ list_to_set field_names)))
  /\ copy_union 0 unknown_kwargs docstring_store
     = (docstring_store,
        Raise (KeyError (dom unknown_kwargs ∖ list_to_set field_names))).
Proof.
  assert (Hin : "license" ∈ dom unknown_kwargs)
    by (rewrite dom_insert_L; set_solver).
  assert (Hnot : "license" ∉ field_names) by set_solver.
  assert (Hbound : "self" ∉ dom unknown_kwargs).
  { rewrite dom_insert_L, dom_singleton_L, elem_of_union,
      !elem_of_singleton. intros [H|H]; discriminate H. }
  split; [reflexivity|]. split; [exact Hin|]. split; [exact Hnot|].
  split; [exact Hbound|].
  exact (proj1 (unknown_key_raises_KeyError docstring_store 0 old
                  unknown_kwargs "license" eq_refl Hin Hnot) Hbound).
Defined.

Local Abbreviation self_kwargs :=
  (<["self" := VNone]> override_path : gmap string val).

(** C3 (counterexample).  [self] names no attribute, yet with the key
    [self] among the overrides, beside a valid one, [copy] and
    [copy_union] raise [TypeError] and not [KeyError]: the receiver
    already is the value of the parameter [self]. *)
Lemma unknown_key_self_raises_TypeError :
  "self" ∈ dom self_kwargs
  /\ ("self" ∉ field_names)
  /\ copy 0 self_kwargs docstring_store = (docstring_store, Raise TypeError)
  /\ copy_union 0 self_kwargs docstring_store
     = (docstring_store, Raise TypeError)
  /\ ~ (exists nonexistent_attributes,
          (copy 0 self_kwargs docstring_store).2
          = Raise (KeyError nonexistent_attributes)).
Proof.
  assert (Hin : "self" ∈ dom self_kwargs)
    by (rewrite dom_insert_L; set_solver).
  assert (Hcopy :
    copy 0 self_kwargs docstring_store = (docstring_store, Raise TypeError)).
  { unfold copy. by apply bind_arguments_raises. }
  split; [exact Hin|]. split; [exact self_not_field|].
  split; [exact Hcopy|]. split.
  - unfold copy_union. by apply bind_arguments_raises.
  - intros [names Hnames]. rewrite Hcopy in Hnames. discriminate Hnames.
Qed.

Lemma contains_copyright_or_licensing_iff_witness :
  infos only_contributor_store !! 0 = Some only_contributor
  /\ set_of only_contributor_store (spdx_expressions only_contributor)
     = Some ∅
  /\ set_of only_contributor_store (copyright_lines only_contributor)
     = Some ∅
  /\ contains_copyright_or_licensing 0 only_contributor_store
     = (only_contributor_store, Return false).
Proof.
  split; [reflexivity|]. split; [reflexivity|]. split; [reflexivity|].
  destruct (contains_copyright_or_licensing_iff only_contributor_store 0
              only_contributor ∅ ∅ eq_refl eq_refl eq_refl)
    as (answer & Hrun & _ & Hfalse).
  rewrite Hrun. f_equal. f_equal.
  apply (Hfalse {[ EStr "Jane Doe" ]}); [reflexivity | set_solver | done..].
Defined.

Lemma __bool___false_iff_witness :
  infos empty_path_store !! 0 = Some empty_path
  /\ set_of empty_path_store (spdx_expressions empty_path) = Some ∅
  /\ set_of empty_path_store (copyright_lines empty_path) = Some ∅
  /\ set_of empty_path_store (contributor_lines empty_path) = Some ∅
  /\ optional_str (source_path empty_path) = true
  /\ optional_source_type (source_type empty_path) = true
  /\ __bool__ 0 empty_path_store = (empty_path_store, Return false).
Proof.
  do 6 (split; [reflexivity|]).
  destruct (__bool___false_iff empty_path_store 0 empty_path ∅ ∅ ∅
              eq_refl eq_refl eq_refl eq_refl eq_refl eq_refl)
    as (answer & Hrun & Hiff).
  rewrite Hrun. f_equal. f_equal. apply Hiff.
  do 3 (split; [reflexivity|]). split; [by right | reflexivity].
Defined.

(** C8 (counterexample).  A record whose [source_path] is the empty
    string, with empty sets and no [source_type], is false although its
    [source_path] is not [None]. *)
Lemma __bool___empty_source_path :
  ~ ((__bool__ 0 empty_path_store).2 = Return false
     <-> spec_all_empty empty_path_store empty_path).
Proof.
  intros [Hspec _].
  assert (Hfalse : (__bool__ 0 empty_path_store).2 = Return false).
  { unfold __bool__.
    rewrite (bind_Return _ _ _ _ _
               (read_info_Some empty_path_store 0 empty_path eq_refl)).
    cbn [__dict__ fmap list_fmap snd empty_path spdx_expressions
           copyright_lines contributor_lines source_path source_type].
    rewrite (any_cons _ _ _ _ (truth_set empty_path_store 0 ∅ eq_refl)).
    rewrite bool_decide_eq_false_2 by (by intros []).
    rewrite (any_cons _ _ _ _ (truth_set empty_path_store 1 ∅ eq_refl)).
    rewrite bool_decide_eq_false_2 by (by intros []).
    rewrite (any_cons _ _ _ _ (truth_set empty_path_store 2 ∅ eq_refl)).
    rewrite bool_decide_eq_false_2 by (by intros []).
    reflexivity. }
  destruct (Hspec Hfalse) as (_ & _ & _ & Hpath & _). discriminate Hpath.
Qed.

Local Abbreviation clearing_kwargs :=
  ({[ "copyright_lines" := VSet 1 ]} : gmap string val).

Lemma clearing_absent_or_empty key value :
  (key, value) ∈ __dict__ old -> isinstance_set value = true ->
  absent_or_empty_set docstring_store clearing_kwargs key.
Proof.
  unfold __dict__. rewrite !elem_of_cons, elem_of_nil.
  intros [[= -> ->]|[[= -> ->]|[[= -> ->]|[[= -> ->]|[[= -> ->]|[]]]]]] Hset;
    try done; try (by left).
  right. by exists 1.
Defined.

Lemma copy_union_without_nonempty_override_witness :
  infos docstring_store !! 0 = Some old
  /\ dom clearing_kwargs ⊆ list_to_set field_names
  /\ (forall key value, (key, value) ∈ __dict__ old ->
        isinstance_set value = true ->
        absent_or_empty_set docstring_store clearing_kwargs key)
  /\ copy_union 0 clearing_kwargs docstring_store
     = copy 0 clearing_kwargs docstring_store.
Proof.
  assert (Hdom : dom clearing_kwargs ⊆ list_to_set field_names)
    by (rewrite dom_singleton_L; set_solver).
  split; [reflexivity|]. split; [exact Hdom|].
  split; [exact clearing_absent_or_empty|].
  exact
    (proj1 (copy_union_without_nonempty_override docstring_store 0 old
              clearing_kwargs eq_refl Hdom clearing_absent_or_empty)).
Defined.

Lemma copy_union_is_set_union_witness :
  infos docstring_store !! 0 = Some old
  /\ dom docstring_kwargs ⊆ list_to_set field_names
  /\ (forall key value, (key, value) ∈ __dict__ old ->
        isinstance_set value = true ->
        set_override docstring_store docstring_kwargs key value)
  /\ getattr old "copyright_lines" = Some (VSet 0)
  /\ sets docstring_store !! 0 = Some {[ EStr "Jane Doe" ]}
  /\ docstring_kwargs !! "copyright_lines" = Some (VSet 3)
  /\ sets docstring_store !! 3 = Some {[ EStr "Mr X" ]}
  /\ ({[ EStr "Mr X" ]} : gset (@elem string)) ≠ ∅
  /\ exists h2 l2,
       copy_union_twice 0 "copyright_lines" (VSet 3) (VSet 3)
         docstring_store = (h2, Return l2)
       /\ attribute_set h2 l2 "copyright_lines"
          = Some ({[ EStr "Jane Doe" ]} ∪ {[ EStr "Mr X" ]}).
Proof.
  assert (Hne : ({[ EStr "Mr X" ]} : gset (@elem string)) ≠ ∅)
    by set_solver.
  split; [reflexivity|]. split; [exact docstring_kwargs_dom|].
  split; [exact docstring_set_override|].
  do 4 (split; [reflexivity|]). split; [exact Hne|].
  exact
    (proj1 (proj2
      (copy_union_is_set_union docstring_store 0 old docstring_kwargs
         "copyright_lines" 0 {[ EStr "Jane Doe" ]} 3 {[ EStr "Mr X" ]}
         eq_refl docstring_kwargs_dom docstring_set_override
         eq_refl eq_refl eq_refl eq_refl Hne))).
Defined.

End samples.

(** ** The pattern tables, rule by rule *)

(** X14.  Some pattern of [_IGNORE_MESON_PARENT_DIR_PATTERNS] matches a
    name exactly when the name is [subprojects], alone or followed by one
    final line feed: no longer name, no other spelling. *)
Theorem _IGNORE_MESON_PARENT_DIR_PATTERNS_match (name : string) :
  Exists (fun pattern => is_match pattern name = true)
         _IGNORE_MESON_PARENT_DIR_PATTERNS
  <-> name = "subprojects" \/ name = "subprojects" +:+ nl.
Proof.
  unfold _IGNORE_MESON_PARENT_DIR_PATTERNS.
  rewrite Exists_cons, Exists_nil, anchored_literal. tauto.
Qed.

(** X15.  Some pattern of [_IGNORE_DIR_PATTERNS] matches a name exactly
    when the name is one of [.git], [.hg], [LICENSES] and [.reuse], alone
    or followed by one final line feed. *)
Theorem _IGNORE_DIR_PATTERNS_match (name : string) :
  Exists (fun pattern => is_match pattern name = true) _IGNORE_DIR_PATTERNS
  <-> exists d, In d ignored_directory_names
                /\ (name = d \/ name = d +:+ nl).
Proof.
  unfold _IGNORE_DIR_PATTERNS.
  rewrite !Exists_cons, Exists_nil, !anchored_literal. split.
  - intros [H|[H|[H|[H|[]]]]].
    + exists ".git". cbn. tauto.
    + exists ".hg". cbn. tauto.
    + exists "LICENSES". cbn. tauto.
    + exists ".reuse". cbn. tauto.
  - intros (d & Hd & H). cbn in Hd.
    destruct Hd as [<-|[<-|[<-|[<-|[]]]]]; tauto.
Qed.

Lemma _IGNORE_SPDX_PATTERNS_listed (name : string) :
  no_newline name = true ->
  spdx_separator_not_dot name = false ->
  existsb (fun pattern => is_match pattern name) _IGNORE_SPDX_PATTERNS
  = spec_is_spdx_metadata_file_exact name.
Proof.
  intros Hnl Hsep. apply Bool.eq_iff_eq_true.
  unfold _IGNORE_SPDX_PATTERNS, spec_is_spdx_metadata_file_exact.
  cbn [existsb].
  rewrite orb_false_r, !orb_true_iff, suffix_literal by done.
  rewrite spdx_format_match by done. rewrite existsb_exists.
  apply or_iff_compat_l. split.
  - intros (p & c & e & -> & He). exists e. split; [done|].
    destruct (Ascii.eqb_spec c ".") as [->|Hc].
    + apply endswith_spec. exists p. reflexivity.
    + exfalso. apply not_true_iff_false in Hsep. apply Hsep.
      apply exists_suffix_spec. exists p, (".spdx" +:+ String c e).
      split; [done|]. rewrite strip_prefix_append.
      apply andb_true_iff. split.
      * by destruct (Ascii.eqb_spec c ".").
      * by apply in_list_spec.
  - intros (e & He & H). apply endswith_spec in H as [p ->].
    by exists p, "."%char, e.
Qed.

(** X16.  For a name without a line feed that does not use the unescaped
    dots of the patterns (no [CAL-1] or [SHL-2] and no [.spdx] followed by
    a character other than a dot), some pattern of [_IGNORE_FILE_PATTERNS]
    matches exactly when the name starts with [LICENSE] or [COPYING], is
    [.git], [.gitkeep] or [.hgtags], ends in [.license], is [CAL-1.0],
    [CAL-1.0-Combined-Work-Exception] or [SHL-2.1] with or without a dot
    and an extension, or ends in [.spdx] or in [.spdx.] and one of [rdf],
    [json], [xml], [yml], [yaml]. *)
Theorem _IGNORE_FILE_PATTERNS_listed (name : string) :
  no_newline name = true ->
  legacy_separator_not_dot name = false ->
  spdx_separator_not_dot name = false ->
  existsb (fun pattern => is_match pattern name) _IGNORE_FILE_PATTERNS
  = startswith name "LICENSE"
    || startswith name "COPYING"
    || String.eqb name ".git"
    || String.eqb name ".gitkeep"
    || String.eqb name ".hgtags"
    || endswith name ".license"
    || legacy_exception "CAL-1.0" name
    || legacy_exception "CAL-1.0-Combined-Work-Exception" name
    || legacy_exception "SHL-2.1" name
    || spec_is_spdx_metadata_file_exact name.
Proof.
  intros Hnl Hlegacy Hspdx. unfold _IGNORE_FILE_PATTERNS.
  rewrite existsb_app, (_IGNORE_SPDX_PATTERNS_listed name Hnl Hspdx).
  unfold _IGNORE_FILE_PATTERNS_base. cbn [existsb].
  rewrite !prefix_literal, !anchored_literal_exact, suffix_literal by done.
  rewrite CAL_pattern, SHL_pattern by done.
  by rewrite orb_false_r, !orb_assoc.
Qed.

Lemma _IGNORE_FILE_PATTERNS_listed_witness :
  existsb (fun pattern => is_match pattern "main.c.license")
          _IGNORE_FILE_PATTERNS = true
  /\ existsb (fun pattern => is_match pattern "SHL-2.1.txt")
             _IGNORE_FILE_PATTERNS = true
  /\ existsb (fun pattern => is_match pattern "license.txt")
             _IGNORE_FILE_PATTERNS = false.
Proof.
  split; [|split].
  - rewrite (_IGNORE_FILE_PATTERNS_listed "main.c.license");
      reflexivity.
  - rewrite (_IGNORE_FILE_PATTERNS_listed "SHL-2.1.txt"); reflexivity.
  - rewrite (_IGNORE_FILE_PATTERNS_listed "license.txt"); reflexivity.
Defined.

(** ** The members of [SourceType] *)

(** X17.  The three members of [SourceType] have three different values:
    none is an alias of another, and a value names its member. *)
Theorem SourceType_value_inj (t1 t2 : SourceType) :
  SourceType_value t1 = SourceType_value t2 -> t1 = t2.
Proof. by destruct t1, t2. Qed.

Lemma SourceType_value_inj_witness :
  SourceType_value FILE_HEADER = SourceType_value FILE_HEADER
  /\ FILE_HEADER = FILE_HEADER.
Proof.
  split; [reflexivity|].
  apply (SourceType_value_inj FILE_HEADER FILE_HEADER). reflexivity.
Defined.

(** ** The record operations, attribute by attribute and by value *)

Section ReuseInfo_by_value_facts.

Context {Expression : Type} `{!EqDecision Expression}
        `{!Countable Expression}.

Local Abbreviation heap := (@heap Expression _ _).
Local Abbreviation M := (@M Expression _ _).
Local Abbreviation pyvalue := (@pyvalue Expression _ _).
Local Abbreviation characters := (@characters Expression _ _).

Implicit Types (h : heap) (self : loc) (r : ReuseInfo)
         (kwargs : gmap string val) (key : string) (p old new : pyvalue).

(** *** Values in a store that grows *)

Lemma value_of_mono h h' v p :
  sets h `prefix_of` sets h' ->
  value_of h v = Some p -> value_of h' v = Some p.
Proof.
  intros [k Hk]. destruct v as [| | |l]; cbn; [done..|].
  destruct (sets h !! l) as [s|] eqn:Hl; [|done]. intros [= <-].
  by rewrite Hk, (lookup_app_l_Some _ _ _ _ Hl).
Qed.

Lemma overrides_in_mono h h' kwargs :
  sets h `prefix_of` sets h' -> overrides_in h kwargs ->
  overrides_in h' kwargs.
Proof.
  intros Hpre Hin key v Hv. destruct (Hin key v Hv) as [p Hp].
  exists p. by apply (value_of_mono h).
Qed.

Lemma override_of_mono h h' kwargs key :
  sets h `prefix_of` sets h' -> overrides_in h kwargs ->
  override_of h' kwargs key = override_of h kwargs key.
Proof.
  intros Hpre Hin. unfold override_of.
  destruct (kwargs !! key) as [v|] eqn:Hv; [|done]. cbn.
  destruct (Hin key v Hv) as [p Hp]. rewrite Hp.
  by apply (value_of_mono h).
Qed.

Lemma merged_mono h h' kwargs key value :
  sets h `prefix_of` sets h' -> overrides_in h kwargs ->
  is_Some (value_of h value) ->
  merged h' kwargs key value = merged h kwargs key value.
Proof.
  intros Hpre Hin [old Hold]. unfold merged.
  rewrite Hold, (value_of_mono h h' _ _ Hpre Hold). cbn.
  by rewrite (override_of_mono h h').
Qed.

Lemma replaces_mono h h' kwargs key value :
  sets h `prefix_of` sets h' -> overrides_in h kwargs ->
  replaces h' kwargs key value = replaces h kwargs key value.
Proof.
  intros Hpre Hin. unfold replaces. by rewrite (override_of_mono h h').
Qed.

(** *** [truth], [iterate] and [union_] by value *)

Lemma truth_by_value h v p :
  value_of h v = Some p -> truth v h = (h, Return (truthy p)).
Proof.
  destruct v as [| | |l]; cbn [value_of]; try (by intros [= <-]).
  destruct (sets h !! l) as [s|] eqn:Hl; [|done]. intros [= <-].
  by apply truth_set.
Qed.

Lemma iterate_by_value h v p :
  value_of h v = Some p ->
  iterate v h = (h, from_option Return (Raise TypeError) (iterated p)).
Proof.
  destruct v as [| | |l]; cbn [value_of]; try (by intros [= <-]).
  destruct (sets h !! l) as [s|] eqn:Hl; [|done]. intros [= <-].
  by apply read_set_Some.
Qed.

Lemma union__by_value h lo o v new s :
  sets h !! lo = Some o -> value_of h v = Some new ->
  iterated new = Some s ->
  union_ (VSet lo) v h
  = (mkHeap (sets h ++ [o ∪ s]) (infos h), Return (VSet (length (sets h)))).
Proof.
  intros Ho Hnew Hs. cbn [union_].
  rewrite (bind_Return _ _ _ _ _ (read_set_Some _ _ _ Ho)).
  pose proof (iterate_by_value _ _ _ Hnew) as Hit. rewrite Hs in Hit.
  by rewrite (bind_Return _ _ _ _ _ Hit).
Qed.

Lemma union__TypeError h lo o v new :
  sets h !! lo = Some o -> value_of h v = Some new ->
  iterated new = None ->
  union_ (VSet lo) v h = (h, Raise TypeError).
Proof.
  intros Ho Hnew Hs. cbn [union_].
  rewrite (bind_Return _ _ _ _ _ (read_set_Some _ _ _ Ho)).
  pose proof (iterate_by_value _ _ _ Hnew) as Hit. rewrite Hs in Hit.
  by rewrite (bind_Raise _ _ _ _ _ Hit).
Qed.

(** *** One turn of the loop of [copy_union], by value *)

Lemma copy_union_body_by_value kwargs acc key value h p :
  overrides_in h kwargs ->
  merged h kwargs key value = Some p ->
  exists h' v',
    copy_union_body kwargs acc key value h
    = (h', Return (<[key := v']> acc))
    /\ sets h `prefix_of` sets h' /\ infos h' = infos h
    /\ value_of h' v' = Some p
    /\ (replaces h kwargs key value = true ->
        v' = kwargs_get kwargs key value).
Proof.
  intros Hin. unfold merged, replaces, override_of.
  destruct (value_of h value) as [old|] eqn:Hold; [|done].
  destruct (kwargs !! key) as [v|] eqn:Hv; cbn.
  - destruct (Hin key v Hv) as [new Hnew]. rewrite Hnew. cbn.
    assert (Hplain :
      (isinstance_set value = true ->
       truth (kwargs_get kwargs key VNone) h = (h, Return false)) ->
      Some new = Some p ->
      exists h' v',
        copy_union_body kwargs acc key value h
        = (h', Return (<[key := v']> acc))
        /\ sets h `prefix_of` sets h' /\ infos h' = infos h
        /\ value_of h' v' = Some p
        /\ (negb (isinstance_set value) || negb (truthy new) = true ->
            v' = kwargs_get kwargs key value)).
    { intros Hfalse [= <-]. exists h, v.
      rewrite copy_union_body_replaces by done.
      unfold copy_body, kwargs_get. rewrite Hv. by cbn. }
    destruct value as [| | |lo]; cbn in Hold;
      try (injection Hold as <-; by apply Hplain).
    destruct (sets h !! lo) as [o|] eqn:Ho; [|done].
    injection Hold as <-. cbn [united].
    destruct (truthy new) eqn:Ht.
    + destruct (iterated new) as [s|] eqn:Hs; [|done]. intros [= <-].
      exists (mkHeap (sets h ++ [o ∪ s]) (infos h)),
        (VSet (length (sets h))).
      unfold copy_union_body, kwargs_get. rewrite Hv.
      cbn [isinstance_set from_option id].
      rewrite (bind_Return _ _ _ _ _ (truth_by_value _ _ _ Hnew)), Ht.
      rewrite (bind_Return _ _ _ _ _ (union__by_value _ _ _ _ _ _ Ho Hnew Hs)).
      split; [done|]. split; [by apply prefix_app_r|]. split; [done|].
      split; [|done]. cbn [value_of sets].
      by rewrite list_lookup_middle.
    + apply Hplain. intros _. unfold kwargs_get. rewrite Hv.
      cbn [from_option id]. by rewrite (truth_by_value _ _ _ Hnew), Ht.
  - intros [= <-]. exists h, value.
    rewrite copy_union_body_absent by done.
    do 3 (split; [done|]). split; [done|].
    intros _. unfold kwargs_get. by rewrite Hv.
Qed.

Lemma copy_union_body_TypeError kwargs acc key value h :
  overrides_in h kwargs -> is_Some (value_of h value) ->
  merged h kwargs key value = None ->
  copy_union_body kwargs acc key value h = (h, Raise TypeError).
Proof.
  intros Hin [old Hold]. unfold merged, override_of. rewrite Hold. cbn.
  destruct (kwargs !! key) as [v|] eqn:Hv; cbn; [|done].
  destruct (Hin key v Hv) as [new Hnew]. rewrite Hnew. cbn.
  destruct old as [| | |o]; try done.
  destruct value as [| | |lo]; cbn in Hold; try done.
  destruct (sets h !! lo) as [o'|] eqn:Ho; [|done].
  destruct (truthy new) eqn:Ht; [|done].
  destruct (iterated new) as [s|] eqn:Hs; [done|]. intros _.
  unfold copy_union_body, kwargs_get. rewrite Hv.
  cbn [isinstance_set from_option id].
  rewrite (bind_Return _ _ _ _ _ (truth_by_value _ _ _ Hnew)), Ht.
  by rewrite (bind_Raise _ _ _ _ _ (union__TypeError _ _ _ _ _ Ho Hnew Hs)).
Qed.

(** *** The loop of [copy_union], by value *)

Lemma for_items_by_value kwargs items acc h :
  NoDup items.*1 ->
  overrides_in h kwargs ->
  (forall key value, (key, value) ∈ items ->
     is_Some (merged h kwargs key value)) ->
  exists h' acc',
    for_items items (copy_union_body kwargs) acc h = (h', Return acc')
    /\ sets h `prefix_of` sets h' /\ infos h' = infos h
    /\ (forall k, k ∉ items.*1 -> acc' !! k = acc !! k)
    /\ (forall key value, (key, value) ∈ items ->
          exists v', acc' !! key = Some v'
                     /\ value_of h' v' = merged h kwargs key value
                     /\ (replaces h kwargs key value = true ->
                         v' = kwargs_get kwargs key value)).
Proof.
  revert acc h.
  induction items as [|[key value] items IH]; intros acc h Hnd Hin Hok.
  - exists h, acc. do 4 (split; [done|]). intros ? ? Hkv.
    by apply elem_of_nil in Hkv.
  - cbn [fmap list_fmap fst] in Hnd. apply NoDup_cons in Hnd as [Hkey Hnd].
    destruct (Hok key value) as [p Hp]; [apply list_elem_of_here|].
    destruct (copy_union_body_by_value kwargs acc key value h p Hin Hp)
      as (h1 & v1 & Hturn & Hpre1 & Hinfo1 & Hv1 & Href1).
    assert (Hvalue : forall k v, (k, v) ∈ items ->
              is_Some (value_of h v)).
    { intros k v Hkv. destruct (Hok k v) as [q Hq];
        [by apply list_elem_of_further|].
      unfold merged in Hq. by destruct (value_of h v). }
    destruct (IH (<[key := v1]> acc) h1 Hnd)
      as (h' & acc' & Hrest & Hpre & Hinfo & Hother & Hitems).
    { by apply (overrides_in_mono h). }
    { intros k v Hkv. rewrite (merged_mono h h1) by eauto.
      apply Hok. by apply list_elem_of_further. }
    exists h', acc'. cbn [for_items].
    rewrite (bind_Return _ _ _ _ _ Hturn). split; [done|].
    split; [by etrans|]. split; [congruence|]. split.
    + intros k Hk. cbn [fmap list_fmap fst] in Hk.
      apply not_elem_of_cons in Hk as [Hne Hk].
      rewrite Hother by done. by rewrite lookup_insert_ne.
    + intros k v Hkv. apply elem_of_cons in Hkv as [[= -> ->]|Hkv].
      * exists v1. split; [|split].
        -- rewrite Hother by done. by rewrite lookup_insert_eq.
        -- rewrite Hp. by apply (value_of_mono h1).
        -- done.
      * destruct (Hitems k v Hkv) as (v' & Hv' & Hval & Href).
        exists v'. split; [done|].
        rewrite (merged_mono h h1) in Hval by eauto.
        rewrite (replaces_mono h h1) in Href by done. done.
Qed.

Lemma for_items_TypeError kwargs items acc h :
  overrides_in h kwargs ->
  (forall key value, (key, value) ∈ items -> is_Some (value_of h value)) ->
  (exists key value, (key, value) ∈ items
                     /\ merged h kwargs key value = None) ->
  exists h',
    for_items items (copy_union_body kwargs) acc h = (h', Raise TypeError)
    /\ sets h `prefix_of` sets h' /\ infos h' = infos h.
Proof.
  revert acc h.
  induction items as [|[key value] items IH]; intros acc h Hin Hval Hbad.
  - destruct Hbad as (k & v & Hkv & _). by apply elem_of_nil in Hkv.
  - cbn [for_items].
    destruct (merged h kwargs key value) as [p|] eqn:Hp.
    + destruct (copy_union_body_by_value kwargs acc key value h p Hin Hp)
        as (h1 & v1 & Hturn & Hpre1 & Hinfo1 & _).
      rewrite (bind_Return _ _ _ _ _ Hturn).
      destruct (IH (<[key := v1]> acc) h1) as (h' & Hrun & Hpre & Hinfo).
      * by apply (overrides_in_mono h).
      * intros k v Hkv. destruct (Hval k v) as [q Hq];
          [by apply list_elem_of_further|].
        exists q. by apply (value_of_mono h).
      * destruct Hbad as (k & v & Hkv & Hnone).
        apply elem_of_cons in Hkv as [[= -> ->]|Hkv]; [congruence|].
        exists k, v. split; [done|].
        rewrite (merged_mono h h1); [done..|].
        apply (Hval k). by apply list_elem_of_further.
      * exists h'. split; [done|]. split; [by etrans | congruence].
    + exists h.
      rewrite (bind_Raise _ _ _ _ _
                 (copy_union_body_TypeError kwargs acc key value h Hin
                    (Hval key value (list_elem_of_here _ _)) Hp)).
      done.
Qed.

(** *** When the turn of an attribute succeeds *)

Lemma merged_is_Some h r kwargs key value :
  attributes_in h r -> overrides_in h kwargs ->
  overrides_iterable r kwargs ->
  (key, value) ∈ __dict__ r -> is_Some (merged h kwargs key value).
Proof.
  intros Hattrs Hin Hit Hkv. unfold merged, override_of.
  destruct (Hattrs key value Hkv) as [old Hold]. rewrite Hold. cbn.
  destruct (kwargs !! key) as [v|] eqn:Hv; cbn; [|done].
  destruct (Hin key v Hv) as [new Hnew]. rewrite Hnew. cbn.
  destruct old as [| | |o]; try done.
  destruct value as [| | |lo]; cbn in Hold; try done.
  destruct new as [|s|t|s]; cbn; try done.
  - by destruct (negb _).
  - destruct v as [| |t'|]; cbn in Hnew; try done.
    + by destruct (Hit key (VSet lo) t' Hkv eq_refl).
    + by destruct (sets h !! l).
  - by case_bool_decide.
Qed.

Lemma merged_SourceType h kwargs key lo t :
  kwargs !! key = Some (VSourceType t) -> is_Some (sets h !! lo) ->
  merged h kwargs key (VSet lo) = None.
Proof.
  intros Hv [o Ho]. unfold merged, override_of. cbn. by rewrite Ho, Hv.
Qed.

(** *** [copy_union], attribute by attribute *)

Lemma value_of_PSet h v s :
  value_of h v = Some (PSet s) -> set_of h v = Some s.
Proof.
  destruct v as [| | |l]; cbn; try done.
  destruct (sets h !! l); cbn; congruence.
Qed.

(** [copy_union] when every reference is in the store and no set is
    given a [SourceType]: it returns a new instance; each attribute is,
    by value, what [merged] says, and is the very object that
    [kwargs.get(key, value)] gives when the turn does not unite. *)
Lemma copy_union_attributes h self r kwargs :
  infos h !! self = Some r ->
  dom kwargs ⊆ list_to_set field_names ->
  attributes_in h r -> overrides_in h kwargs ->
  overrides_iterable r kwargs ->
  exists h1 r1,
    copy_union self kwargs h = (h1, Return (length (infos h)))
    /\ infos h1 = infos h ++ [r1]
    /\ sets h `prefix_of` sets h1
    /\ (forall key value, getattr r key = Some value ->
          exists v', getattr r1 key = Some v'
                     /\ value_of h1 v' = merged h kwargs key value
                     /\ (replaces h kwargs key value = true ->
                         v' = kwargs_get kwargs key value)).
Proof.
  intros Hself Hdom Hattrs Hin Hit. unfold copy_union.
  rewrite bind_arguments_passes by by apply fields_without_self.
  rewrite (bind_Return _ _ _ _ _
             (_check_nonexistent_passes _ _ _ _ Hself Hdom)).
  rewrite (bind_Return _ _ _ _ _ (read_info_Some _ _ _ Hself)).
  destruct (for_items_by_value kwargs (__dict__ r) ∅ h)
    as (h' & acc' & Hloop & Hpre & Hinfo & Hother & Hitems);
    [apply NoDup_field_names | done | |].
  { intros key value Hkv. by eapply merged_is_Some. }
  rewrite (bind_Return _ _ _ _ _ Hloop).
  assert (Hall : forall key, key ∈ field_names -> is_Some (acc' !! key)).
  { intros key Hkey. destruct (getattr_field r key Hkey) as [v Hv].
    destruct (Hitems key v (getattr_cases _ _ _ Hv)) as (v' & Hv' & _).
    by exists v'. }
  assert (Hdom' : dom acc' ⊆ list_to_set field_names).
  { intros key [v Hv]%elem_of_dom. apply elem_of_list_to_set.
    destruct (decide (key ∈ field_names)) as [|Hnot]; [done|].
    rewrite (Hother key Hnot), lookup_empty in Hv. done. }
  rewrite (__class___every_argument _ _ Hdom' Hall).
  eexists _, _. split; [unfold new_info; by rewrite Hinfo|].
  cbn [infos sets]. split; [done|]. split; [done|].
  intros key value Hattr. apply getattr_cases in Hattr.
  destruct (Hitems key value Hattr) as (v' & Hv' & Hval).
  exists v'. split; [|done]. revert Hattr Hv'. unfold __dict__.
  rewrite !elem_of_cons, elem_of_nil.
  intros [[= -> _]|[[= -> _]|[[= -> _]|[[= -> _]|[[= -> _]|[]]]]]] Hv';
    unfold getattr, kwargs_get; cbn; by rewrite Hv'.
Qed.

Lemma by_value_intro h l r1 r (g : string -> val -> option pyvalue) :
  infos h !! l = Some r1 ->
  (forall key value, getattr r key = Some value ->
     exists v', getattr r1 key = Some v' /\ value_of h v' = g key value) ->
  by_value h l = Some ((fun kv => (kv.1, g kv.1 kv.2)) <$> __dict__ r).
Proof.
  intros Hl Hattrs. unfold by_value. rewrite Hl. cbn [mbind option_bind].
  destruct (Hattrs "spdx_expressions" _ eq_refl) as (v1 & [= <-] & H1).
  destruct (Hattrs "copyright_lines" _ eq_refl) as (v2 & [= <-] & H2).
  destruct (Hattrs "contributor_lines" _ eq_refl) as (v3 & [= <-] & H3).
  destruct (Hattrs "source_path" _ eq_refl) as (v4 & [= <-] & H4).
  destruct (Hattrs "source_type" _ eq_refl) as (v5 & [= <-] & H5).
  unfold __dict__. cbn [fmap list_fmap prod_map fst snd id].
  by rewrite H1, H2, H3, H4, H5.
Qed.

(** X1.  With every set reference in the store, every key naming an
    attribute and no set attribute given a [SourceType], [copy_union]
    returns an instance whose attributes are, by value, those computed
    by [merged]: the old value without an override; the union of the old
    set with the elements of a true override (a set's elements, a
    string's characters); the override in every other case. *)
Theorem copy_union_by_value h self r kwargs :
  infos h !! self = Some r ->
  dom kwargs ⊆ list_to_set field_names ->
  attributes_in h r -> overrides_in h kwargs ->
  overrides_iterable r kwargs ->
  exists h1 l1,
    copy_union self kwargs h = (h1, Return l1)
    /\ infos h !! l1 = None
    /\ by_value h1 l1
       = Some ((fun kv => (kv.1, merged h kwargs kv.1 kv.2)) <$> __dict__ r).
Proof.
  intros Hself Hdom Hattrs Hin Hit.
  destruct (copy_union_attributes h self r kwargs Hself Hdom Hattrs Hin Hit)
    as (h1 & r1 & Hrun & Hinfo & Hpre & Hall).
  exists h1, (length (infos h)). split; [done|].
  split; [by apply lookup_ge_None_2|].
  apply (by_value_intro _ _ r1).
  - rewrite Hinfo. by apply list_lookup_middle.
  - intros key value Hattr.
    destruct (Hall key value Hattr) as (v' & Hv' & Hval & _). by exists v'.
Qed.

(** *** [copy_union] called twice with the same overrides *)

Lemma characters_nonempty s : s ≠ "" -> characters s ≠ ∅.
Proof. destruct s as [|c s]; [done|]. intros _. cbn. set_solver. Qed.

Lemma truthy_iterated new s :
  truthy new = true -> iterated new = Some s -> s ≠ ∅.
Proof.
  destruct new as [|x|t|x]; cbn; try done.
  - intros Hx [= <-]. apply characters_nonempty. by intros ->.
  - intros Hx [= <-]. by apply bool_decide_eq_true in Hx.
Qed.

Lemma united_again old override p :
  united old override = Some p -> united p override = Some p.
Proof.
  destruct override as [new|]; cbn; [|done].
  assert (Hnew : united new (Some new) = Some new).
  { destruct new as [|sn|tn|n]; cbn; try done.
    case_bool_decide; [|done]. f_equal. f_equal. set_solver. }
  destruct old as [|so|to|o]; try (intros [= <-]; exact Hnew).
  destruct (truthy new) eqn:Ht; [|intros [= <-]; by destruct new].
  destruct (iterated new) as [s|] eqn:Hs; cbn; [|done]. intros [= <-].
  f_equal. f_equal. set_solver.
Qed.

Lemma overrides_iterable_again h r r1 kwargs :
  overrides_iterable r kwargs ->
  (forall key value, getattr r key = Some value ->
     exists v', getattr r1 key = Some v'
                /\ (replaces h kwargs key value = true ->
                    v' = kwargs_get kwargs key value)) ->
  overrides_iterable r1 kwargs.
Proof.
  intros Hit Hall key v1 t Hkv Hset Hv.
  apply (list_elem_of_fmap_2 fst) in Hkv as Hkey. cbn in Hkey.
  destruct (getattr_field r key Hkey) as [value Hvalue].
  destruct (Hall key value Hvalue) as (v' & Hv' & Href).
  rewrite (elem_of_getattr _ _ _ Hkv) in Hv'. injection Hv' as <-.
  destruct (isinstance_set value) eqn:Hold.
  - by apply (Hit key value t (getattr_cases _ _ _ Hvalue)).
  - unfold replaces in Href. rewrite Hold in Href.
    rewrite (Href eq_refl) in Hset. unfold kwargs_get in Hset.
    rewrite Hv in Hset. done.
Qed.

(** X2.  Under the same conditions, folding the same overrides in a
    second time changes nothing by value: in the store reached, the
    instance returned by the second [copy_union] and the one returned by
    the first have the same attributes, those computed by [merged]. *)
Theorem copy_union_again_by_value h self r kwargs :
  infos h !! self = Some r ->
  dom kwargs ⊆ list_to_set field_names ->
  attributes_in h r -> overrides_in h kwargs ->
  overrides_iterable r kwargs ->
  exists h1 l1 h2 l2,
    copy_union self kwargs h = (h1, Return l1)
    /\ copy_union_then self kwargs kwargs h = (h2, Return l2)
    /\ l1 ≠ l2
    /\ by_value h2 l1
       = Some ((fun kv => (kv.1, merged h kwargs kv.1 kv.2)) <$> __dict__ r)
    /\ by_value h2 l2 = by_value h2 l1.
Proof.
  intros Hself Hdom Hattrs Hin Hit.
  destruct (copy_union_attributes h self r kwargs Hself Hdom Hattrs Hin Hit)
    as (h1 & r1 & Hrun1 & Hinfo1 & Hpre1 & Hall1).
  assert (Hl1 : infos h1 !! length (infos h) = Some r1)
    by (rewrite Hinfo1; by apply list_lookup_middle).
  assert (Hsome : forall key value, getattr r key = Some value ->
            is_Some (merged h kwargs key value)).
  { intros key value Hattr. eapply merged_is_Some; [done..|].
    by apply getattr_cases. }
  assert (Hattrs1 : attributes_in h1 r1).
  { intros key v1 Hkv.
    apply (list_elem_of_fmap_2 fst) in Hkv as Hkey. cbn in Hkey.
    destruct (getattr_field r key Hkey) as [value Hvalue].
    destruct (Hall1 key value Hvalue) as (v' & Hv' & Hval & _).
    rewrite (elem_of_getattr _ _ _ Hkv) in Hv'. injection Hv' as <-.
    rewrite Hval. by apply Hsome. }
  assert (Hin1 : overrides_in h1 kwargs) by by apply (overrides_in_mono h).
  assert (Hit1 : overrides_iterable r1 kwargs).
  { apply (overrides_iterable_again h r); [done|].
    intros key value Hattr.
    destruct (Hall1 key value Hattr) as (v' & Hv' & _ & Href).
    by exists v'. }
  destruct (copy_union_attributes h1 (length (infos h)) r1 kwargs
              Hl1 Hdom Hattrs1 Hin1 Hit1)
    as (h2 & r2 & Hrun2 & Hinfo2 & Hpre2 & Hall2).
  exists h1, (length (infos h)), h2, (length (infos h1)).
  split; [done|]. split.
  { unfold copy_union_then. by rewrite (bind_Return _ _ _ _ _ Hrun1). }
  split; [rewrite Hinfo1, length_app; cbn; lia|].
  assert (Hfirst :
    by_value h2 (length (infos h))
    = Some ((fun kv => (kv.1, merged h kwargs kv.1 kv.2)) <$> __dict__ r)).
  { apply (by_value_intro _ _ r1).
    - rewrite Hinfo2. by apply lookup_app_l_Some.
    - intros key value Hattr.
      destruct (Hall1 key value Hattr) as (v' & Hv' & Hval & _).
      exists v'. split; [done|].
      destruct (Hsome key value Hattr) as [p Hp]. rewrite Hp in Hval |- *.
      by apply (value_of_mono h1). }
  split; [done|]. rewrite Hfirst.
  apply (by_value_intro _ _ r2).
  - rewrite Hinfo2. by apply list_lookup_middle.
  - intros key value Hattr.
    destruct (Hall1 key value Hattr) as (v1 & Hv1 & Hval1 & _).
    destruct (Hall2 key v1 Hv1) as (v2 & Hv2 & Hval2 & _).
    exists v2. split; [done|]. rewrite Hval2.
    destruct (Hsome key value Hattr) as [p Hp]. rewrite Hp in Hval1 |- *.
    unfold merged in Hp |- *. rewrite Hval1. cbn.
    rewrite (override_of_mono h h1) by done.
    destruct (value_of h value) as [old|]; [|done]. cbn in Hp.
    by apply (united_again old).
Qed.

(** *** [copy_union] for one group of attributes after another *)

Lemma attributes_in_after h h1 r r1 kwargs :
  attributes_in h r -> overrides_in h kwargs ->
  overrides_iterable r kwargs ->
  (forall key value, getattr r key = Some value ->
     exists v', getattr r1 key = Some v'
                /\ value_of h1 v' = merged h kwargs key value
                /\ (replaces h kwargs key value = true ->
                    v' = kwargs_get kwargs key value)) ->
  attributes_in h1 r1.
Proof.
  intros Hattrs Hin Hit Hall key v1 Hkv.
  apply (list_elem_of_fmap_2 fst) in Hkv as Hkey. cbn in Hkey.
  destruct (getattr_field r key Hkey) as [value Hvalue].
  destruct (Hall key value Hvalue) as (v' & Hv' & Hval & _).
  rewrite (elem_of_getattr _ _ _ Hkv) in Hv'. injection Hv' as <-.
  rewrite Hval. eapply merged_is_Some; [done..|]. by apply getattr_cases.
Qed.

Lemma merged_union_l h kwargs1 kwargs2 key value v :
  kwargs1 !! key = Some v ->
  merged h (kwargs1 ∪ kwargs2) key value = merged h kwargs1 key value.
Proof.
  intros Hv. unfold merged, override_of.
  by rewrite (lookup_union_Some_l _ _ _ _ Hv), Hv.
Qed.

Lemma merged_union_r h kwargs1 kwargs2 key value :
  kwargs1 !! key = None ->
  merged h (kwargs1 ∪ kwargs2) key value = merged h kwargs2 key value.
Proof.
  intros Hv. unfold merged, override_of. by rewrite (lookup_union_r _ _ _ Hv).
Qed.

(** X18.  Folding in the overrides for some attributes and then, on the
    result, the overrides for other attributes gives an instance with,
    by value, the attributes of the instance that one [copy_union] with
    all the overrides together gives. *)
Theorem copy_union_then_is_copy_union_of_union
        h self r kwargs1 kwargs2 :
  infos h !! self = Some r ->
  dom kwargs1 ⊆ list_to_set field_names ->
  dom kwargs2 ⊆ list_to_set field_names ->
  kwargs1 ##ₘ kwargs2 ->
  attributes_in h r ->
  overrides_in h kwargs1 -> overrides_in h kwargs2 ->
  overrides_iterable r kwargs1 -> overrides_iterable r kwargs2 ->
  exists h2 l2 h3 l3 attributes,
    copy_union_then self kwargs1 kwargs2 h = (h2, Return l2)
    /\ copy_union self (kwargs1 ∪ kwargs2) h = (h3, Return l3)
    /\ by_value h2 l2 = Some attributes
    /\ by_value h3 l3 = Some attributes
    /\ attributes
       = (fun kv => (kv.1, merged h (kwargs1 ∪ kwargs2) kv.1 kv.2))
           <$> __dict__ r.
Proof.
  intros Hself Hdom1 Hdom2 Hdisj Hattrs Hin1 Hin2 Hit1 Hit2.
  destruct (copy_union_attributes h self r kwargs1 Hself Hdom1 Hattrs
              Hin1 Hit1) as (h1 & r1 & Hrun1 & Hinfo1 & Hpre1 & Hall1).
  assert (Hl1 : infos h1 !! length (infos h) = Some r1)
    by (rewrite Hinfo1; by apply list_lookup_middle).
  assert (Hattrs1 : attributes_in h1 r1)
    by by apply (attributes_in_after h h1 r r1 kwargs1).
  assert (Hin2' : overrides_in h1 kwargs2)
    by by apply (overrides_in_mono h).
  assert (Hit2' : overrides_iterable r1 kwargs2).
  { intros key v1 t Hkv Hset Hv2.
    apply (list_elem_of_fmap_2 fst) in Hkv as Hkey. cbn in Hkey.
    destruct (getattr_field r key Hkey) as [value Hvalue].
    destruct (Hall1 key value Hvalue) as (v' & Hv' & _ & Href).
    rewrite (elem_of_getattr _ _ _ Hkv) in Hv'. injection Hv' as <-.
    assert (Hnone : kwargs1 !! key = None)
      by by eapply map_disjoint_Some_r.
    rewrite Href in Hset.
    - unfold kwargs_get in Hset. rewrite Hnone in Hset.
      by apply (Hit2 key value t (getattr_cases _ _ _ Hvalue)).
    - unfold replaces, override_of. rewrite Hnone. apply orb_true_r. }
  destruct (copy_union_attributes h1 (length (infos h)) r1 kwargs2
              Hl1 Hdom2 Hattrs1 Hin2' Hit2')
    as (h2 & r2 & Hrun2 & Hinfo2 & Hpre2 & Hall2).
  destruct (copy_union_attributes h self r (kwargs1 ∪ kwargs2) Hself)
    as (h3 & r3 & Hrun3 & Hinfo3 & Hpre3 & Hall3); [|done|..].
  { rewrite dom_union_L. set_solver. }
  { intros key v [Hv|[_ Hv]]%lookup_union_Some_raw; eauto. }
  { intros key value t Hkv Hset [Hv|[_ Hv]]%lookup_union_Some_raw.
    - by apply (Hit1 key value t).
    - by apply (Hit2 key value t). }
  eexists h2, (length (infos h1)), h3, (length (infos h)), _.
  split.
  { unfold copy_union_then. by rewrite (bind_Return _ _ _ _ _ Hrun1). }
  split; [done|]. split; [|split; [|reflexivity]].
  - apply (by_value_intro _ _ r2).
    + rewrite Hinfo2. by apply list_lookup_middle.
    + intros key value Hattr.
      destruct (Hall1 key value Hattr) as (v1 & Hv1 & Hval1 & Href1).
      destruct (Hall2 key v1 Hv1) as (v2 & Hv2 & Hval2 & _).
      exists v2. split; [done|]. rewrite Hval2.
      destruct (kwargs1 !! key) as [v|] eqn:Hv.
      * rewrite (merged_union_l _ _ _ _ _ _ Hv), <- Hval1.
        unfold merged, override_of.
        rewrite (map_disjoint_Some_l _ _ _ _ Hdisj Hv). cbn.
        by destruct (value_of h1 v1).
      * rewrite (merged_union_r _ _ _ _ _ Hv).
        destruct (Hattrs key value (getattr_cases _ _ _ Hattr))
          as [old Hold].
        assert (v1 = value) as ->.
        { rewrite Href1; [unfold kwargs_get; by rewrite Hv|].
          unfold replaces, override_of. rewrite Hv. apply orb_true_r. }
        by apply merged_mono; [| |exists old].
  - apply (by_value_intro _ _ r3).
    + rewrite Hinfo3. by apply list_lookup_middle.
    + intros key value Hattr.
      destruct (Hall3 key value Hattr) as (v3 & Hv3 & Hval3 & _).
      by exists v3.
Qed.

(** *** What [copy_union] does with an override that is no set *)

Lemma characters_single x s :
  x ∈ characters s -> exists c, x = EStr (String c "").
Proof.
  induction s as [|c s IH]; cbn; [set_solver|].
  rewrite elem_of_union, elem_of_singleton. intros [->|Hx]; [by exists c|].
  by apply IH.
Qed.

(** X3.  A non-empty string given for an attribute that holds a set is
    iterated: the new attribute is the union of the old set with the
    characters of the string, each a string of length one, so the string
    itself is added only if it is a single character. *)
Theorem copy_union_string_adds_characters h self r kwargs key lo o s :
  infos h !! self = Some r ->
  dom kwargs ⊆ list_to_set field_names ->
  attributes_in h r -> overrides_in h kwargs ->
  overrides_iterable r kwargs ->
  getattr r key = Some (VSet lo) -> sets h !! lo = Some o ->
  kwargs !! key = Some (VStr s) -> s ≠ "" ->
  exists h1 l1,
    copy_union self kwargs h = (h1, Return l1)
    /\ attribute_set h1 l1 key = Some (o ∪ characters s)
    /\ (EStr s ∈ o ∪ characters s -> EStr s ∈ o \/ String.length s = 1).
Proof.
  intros Hself Hdom Hattrs Hin Hit Hattr Ho Hkey Hne.
  destruct (copy_union_attributes h self r kwargs Hself Hdom Hattrs Hin Hit)
    as (h1 & r1 & Hrun & Hinfo & Hpre & Hall).
  destruct (Hall key _ Hattr) as (v' & Hv' & Hval & _).
  exists h1, (length (infos h)). split; [done|]. split.
  - unfold attribute_set. rewrite Hinfo, list_lookup_middle by done.
    cbn [mbind option_bind]. rewrite Hv'. apply value_of_PSet.
    rewrite Hval. unfold merged, override_of. cbn. rewrite Ho, Hkey. cbn.
    by destruct s.
  - rewrite elem_of_union. intros [Hs|Hs]; [by left|right].
    apply characters_single in Hs as [c [= ->]]. done.
Qed.

(** X4.  A [SourceType] given for an attribute that holds a set makes
    [copy_union] raise [TypeError]: no instance is created, and the sets
    and instances of the store are as they were. *)
Theorem copy_union_SourceType_for_set_raises_TypeError
        h self r kwargs key lo t :
  infos h !! self = Some r ->
  dom kwargs ⊆ list_to_set field_names ->
  attributes_in h r -> overrides_in h kwargs ->
  getattr r key = Some (VSet lo) ->
  kwargs !! key = Some (VSourceType t) ->
  exists h',
    copy_union self kwargs h = (h', Raise TypeError)
    /\ infos h' = infos h
    /\ sets h `prefix_of` sets h'.
Proof.
  intros Hself Hdom Hattrs Hin Hattr Hkey. unfold copy_union.
  rewrite bind_arguments_passes by by apply fields_without_self.
  rewrite (bind_Return _ _ _ _ _
             (_check_nonexistent_passes _ _ _ _ Hself Hdom)).
  rewrite (bind_Return _ _ _ _ _ (read_info_Some _ _ _ Hself)).
  apply getattr_cases in Hattr.
  destruct (for_items_TypeError kwargs (__dict__ r) ∅ h Hin Hattrs)
    as (h' & Hloop & Hpre & Hinfo).
  { exists key, (VSet lo). split; [done|].
    apply merged_SourceType with t; [done|].
    destruct (Hattrs key _ Hattr) as [p Hp]. cbn in Hp.
    by destruct (sets h !! lo). }
  exists h'. by rewrite (bind_Raise _ _ _ _ _ Hloop).
Qed.

(** X5.  The attributes that [copy_union] is given no override for are
    those of the receiver, the same objects: the new instance shares
    their sets with it. *)
Theorem copy_union_shares_attributes_without_override h self r kwargs :
  infos h !! self = Some r ->
  dom kwargs ⊆ list_to_set field_names ->
  attributes_in h r -> overrides_in h kwargs ->
  overrides_iterable r kwargs ->
  exists h1 l1 r1,
    copy_union self kwargs h = (h1, Return l1)
    /\ infos h1 !! l1 = Some r1
    /\ forall key, key ∈ field_names -> kwargs !! key = None ->
                   getattr r1 key = getattr r key.
Proof.
  intros Hself Hdom Hattrs Hin Hit.
  destruct (copy_union_attributes h self r kwargs Hself Hdom Hattrs Hin Hit)
    as (h1 & r1 & Hrun & Hinfo & Hpre & Hall).
  exists h1, (length (infos h)), r1. split; [done|].
  split; [rewrite Hinfo; by apply list_lookup_middle|].
  intros key Hkey Hnone. destruct (getattr_field r key Hkey) as [value Hv].
  destruct (Hall key value Hv) as (v' & Hv' & _ & Href).
  rewrite Hv, Hv'. f_equal. rewrite Href.
  - unfold kwargs_get. by rewrite Hnone.
  - unfold replaces, override_of. rewrite Hnone. cbn. apply orb_true_r.
Qed.

(** X6.  An override is stored as it is, without a union, when the
    attribute holds no set, and also when the override is false: [None],
    the empty string or an empty set given for an attribute replaces the
    set it held. *)
Theorem copy_union_replaces_without_union h self r kwargs :
  infos h !! self = Some r ->
  dom kwargs ⊆ list_to_set field_names ->
  attributes_in h r -> overrides_in h kwargs ->
  overrides_iterable r kwargs ->
  exists h1 l1 r1,
    copy_union self kwargs h = (h1, Return l1)
    /\ infos h1 !! l1 = Some r1
    /\ forall key value v,
         getattr r key = Some value -> kwargs !! key = Some v ->
         isinstance_set value = false
         \/ (exists p, value_of h v = Some p /\ truthy p = false) ->
         getattr r1 key = Some v.
Proof.
  intros Hself Hdom Hattrs Hin Hit.
  destruct (copy_union_attributes h self r kwargs Hself Hdom Hattrs Hin Hit)
    as (h1 & r1 & Hrun & Hinfo & Hpre & Hall).
  exists h1, (length (infos h)), r1. split; [done|].
  split; [rewrite Hinfo; by apply list_lookup_middle|].
  intros key value v Hvalue Hv Hcase.
  destruct (Hall key value Hvalue) as (v' & Hv' & _ & Href).
  rewrite Hv'. f_equal. rewrite Href.
  - unfold kwargs_get. by rewrite Hv.
  - unfold replaces, override_of. rewrite Hv. cbn.
    destruct Hcase as [->|(p & Hp & Ht)]; [done|].
    rewrite Hp. cbn. rewrite Ht. apply orb_true_r.
Qed.

(** *** Copyright and licensing information is kept *)

Lemma contains_by_value h l r p1 p2 :
  infos h !! l = Some r ->
  value_of h (spdx_expressions r) = Some p1 ->
  value_of h (copyright_lines r) = Some p2 ->
  contains_copyright_or_licensing l h
  = (h, Return (truthy p1 || truthy p2)).
Proof.
  intros Hl H1 H2. unfold contains_copyright_or_licensing.
  rewrite (bind_Return _ _ _ _ _ (read_info_Some _ _ _ Hl)).
  rewrite (bind_Return _ _ _ _ _ (truth_by_value _ _ _ H1)).
  destruct (truthy p1) eqn:Ht.
  - by rewrite (truth_by_value _ _ _ H1), Ht.
  - by rewrite (truth_by_value _ _ _ H2).
Qed.

Lemma merged_truthy h kwargs key value old q :
  value_of h value = Some old ->
  merged h kwargs key value = Some q ->
  (forall v p, kwargs !! key = Some v -> value_of h v = Some p ->
               truthy p = true) ->
  truthy old = true -> truthy q = true.
Proof.
  intros Hold. unfold merged, override_of. rewrite Hold. cbn.
  destruct (kwargs !! key) as [v|]; cbn; [|by intros [= <-]].
  destruct (value_of h v) as [new|] eqn:Hnew; cbn; [|by intros [= <-]].
  intros Hq Htrue Ht. specialize (Htrue v new eq_refl Hnew).
  destruct old as [|so|to|o]; try (by injection Hq as <-).
  rewrite Htrue in Hq.
  destruct (iterated new) as [s|] eqn:Hs; [|done]. injection Hq as <-.
  apply bool_decide_eq_true.
  pose proof (truthy_iterated _ _ Htrue Hs). set_solver.
Qed.

(** X7.  A record that contains copyright or licensing information still
    does after [copy_union], provided the overrides given for
    [spdx_expressions] and [copyright_lines], if any, are true (a false
    one would replace the set). *)
Theorem copy_union_keeps_copyright_or_licensing h self r kwargs :
  infos h !! self = Some r ->
  dom kwargs ⊆ list_to_set field_names ->
  attributes_in h r -> overrides_in h kwargs ->
  overrides_iterable r kwargs ->
  (forall key v p,
      key = "spdx_expressions" \/ key = "copyright_lines" ->
      kwargs !! key = Some v -> value_of h v = Some p -> truthy p = true) ->
  contains_copyright_or_licensing self h = (h, Return true) ->
  exists h1 l1,
    copy_union self kwargs h = (h1, Return l1)
    /\ contains_copyright_or_licensing l1 h1 = (h1, Return true).
Proof.
  intros Hself Hdom Hattrs Hin Hit Htrue Hold.
  destruct (copy_union_attributes h self r kwargs Hself Hdom Hattrs Hin Hit)
    as (h1 & r1 & Hrun & Hinfo & Hpre & Hall).
  destruct (Hattrs "spdx_expressions" (spdx_expressions r)) as [p1 Hp1];
    [apply list_elem_of_here|].
  destruct (Hattrs "copyright_lines" (copyright_lines r)) as [p2 Hp2];
    [apply list_elem_of_further, list_elem_of_here|].
  rewrite (contains_by_value _ _ _ _ _ Hself Hp1 Hp2) in Hold.
  injection Hold as Hold.
  destruct (Hall "spdx_expressions" _ eq_refl) as (v1 & [= <-] & Hv1 & _).
  destruct (Hall "copyright_lines" _ eq_refl) as (v2 & [= <-] & Hv2 & _).
  destruct (merged_is_Some h r kwargs "spdx_expressions"
              (spdx_expressions r)) as [q1 Hq1];
    [done | done | done | apply list_elem_of_here |].
  destruct (merged_is_Some h r kwargs "copyright_lines"
              (copyright_lines r)) as [q2 Hq2];
    [done | done | done
    | apply list_elem_of_further, list_elem_of_here |].
  rewrite Hq1 in Hv1. rewrite Hq2 in Hv2.
  exists h1, (length (infos h)). split; [done|].
  rewrite (contains_by_value h1 _ r1 q1 q2);
    [|rewrite Hinfo; by apply list_lookup_middle | done | done].
  f_equal. f_equal. apply orb_true_iff.
  apply orb_true_iff in Hold as [Ht|Ht]; [left|right].
  - apply (merged_truthy _ _ _ _ _ _ Hp1 Hq1); [|done].
    intros v p. apply Htrue. by left.
  - apply (merged_truthy _ _ _ _ _ _ Hp2 Hq2); [|done].
    intros v p. apply Htrue. by right.
Qed.

(** *** Truth of a record *)

Lemma any_by_value values h :
  Forall (fun v => is_Some (value_of h v)) values ->
  any values h
  = (h, Return (existsb (fun v => from_option truthy false (value_of h v))
                        values)).
Proof.
  induction 1 as [|v values [p Hp] _ IH]; [done|].
  rewrite (any_cons _ _ _ _ (truth_by_value _ _ _ Hp)). cbn [existsb].
  rewrite Hp. cbn. by destruct (truthy p).
Qed.

(** X8.  Whatever the attributes hold, [__bool__] answers true exactly
    when some attribute is true: a non-empty set, a non-empty string or a
    [SourceType], in any of the five attributes. *)
Theorem __bool___true_iff_some_attribute_true h self r :
  infos h !! self = Some r ->
  attributes_in h r ->
  exists answer,
    __bool__ self h = (h, Return answer)
    /\ (answer = true
        <-> exists key value p,
              getattr r key = Some value
              /\ value_of h value = Some p /\ truthy p = true).
Proof.
  intros Hself Hattrs. unfold __bool__.
  rewrite (bind_Return _ _ _ _ _ (read_info_Some _ _ _ Hself)).
  rewrite any_by_value.
  2:{ apply Forall_forall. intros v [[key v'] [-> Hkv]]%list_elem_of_fmap.
      by apply (Hattrs key). }
  eexists. split; [done|]. rewrite existsb_exists. split.
  - intros (v & Hv%list_elem_of_In & Ht).
    apply list_elem_of_fmap in Hv as [[key v'] [-> Hkv]]. cbn in Ht.
    destruct (value_of h v') as [p|] eqn:Hp; [|done].
    exists key, v', p. split; [by apply elem_of_getattr | done].
  - intros (key & value & p & Hkv%getattr_cases & Hp & Ht).
    exists value. split.
    + apply list_elem_of_In, list_elem_of_fmap. by exists (key, value).
    + by rewrite Hp.
Qed.

Lemma truth_outcome v h : exists o, truth v h = (h, o).
Proof.
  destruct v as [| | |l]; cbn [truth]; try by eexists.
  unfold bind, read_set. destruct (sets h !! l); by eexists.
Qed.

(** X9.  A record that contains copyright or licensing information is
    true: whenever [contains_copyright_or_licensing] answers true, so
    does [__bool__]. *)
Theorem contains_copyright_or_licensing_implies___bool__ h self :
  (contains_copyright_or_licensing self h).2 = Return true ->
  __bool__ self h = (h, Return true).
Proof.
  unfold contains_copyright_or_licensing, __bool__.
  unfold bind at 1 3, read_info.
  destruct (infos h !! self) as [r|]; cbn [from_option]; [|done].
  cbn [__dict__ fmap list_fmap snd any].
  destruct (truth_outcome (spdx_expressions r) h) as [o1 H1].
  destruct (truth_outcome (copyright_lines r) h) as [o2 H2].
  unfold bind. rewrite H1.
  destruct o1 as [[]| |]; try done. rewrite H2.
  by destruct o2 as [[]| |].
Qed.

(** *** Operations that only read *)

Local Abbreviation reads_only := (@reads_only Expression _ _ _).

Lemma reads_only_bind {A B} (m : M A) (f : A -> M B) :
  reads_only m -> (forall a, reads_only (f a)) -> reads_only (bind m f).
Proof.
  intros Hm Hf h. unfold bind. specialize (Hm h).
  destruct (m h) as [h1 [a| |]]; cbn in *; subst; [apply Hf | done..].
Qed.

Lemma reads_only_truth v : reads_only (truth v).
Proof. intros h. by destruct (truth_outcome v h) as [o ->]. Qed.

Lemma reads_only_any values : reads_only (any values).
Proof.
  induction values as [|v values IH]; [done|]. cbn [any].
  apply reads_only_bind; [apply reads_only_truth|]. by intros [].
Qed.

(** X10.  [__bool__], [contains_copyright_or_licensing] and
    [_check_nonexistent] leave the store exactly as it was, whatever the
    record holds and however the call ends. *)
Theorem queries_leave_store_as_it_is self kwargs :
  reads_only (__bool__ self)
  /\ reads_only (contains_copyright_or_licensing self)
  /\ reads_only (_check_nonexistent self kwargs).
Proof.
  split; [|split].
  - apply reads_only_bind; [done|]. intros r. apply reads_only_any.
  - apply reads_only_bind; [done|]. intros r.
    apply reads_only_bind; [apply reads_only_truth|]. intros c.
    apply reads_only_truth.
  - intros h. unfold _check_nonexistent, bind_arguments.
    case_bool_decide; [done|]. revert h.
    apply reads_only_bind; [done|]. intros r h. cbv zeta.
    by case_bool_decide.
Qed.

(** *** The constructor's defaults *)

(** X11.  [ReuseInfo()] allocates three new empty sets, one for each
    set attribute ([default_factory=set]): three different objects, none
    of them in the store before, so no instance built earlier shares
    them.  [source_path] and [source_type] are [None]; the record is
    false and contains no copyright or licensing information. *)
Theorem default_ReuseInfo_is_fresh_and_false h :
  exists h' l l1 l2 l3,
    __class__ ∅ h = (h', Return l)
    /\ infos h !! l = None
    /\ infos h' !! l = Some (mkReuseInfo (VSet l1) (VSet l2) (VSet l3)
                                         VNone VNone)
    /\ NoDup [l1; l2; l3]
    /\ Forall (fun l' => sets h !! l' = None /\ sets h' !! l' = Some ∅)
              [l1; l2; l3]
    /\ __bool__ l h' = (h', Return false)
    /\ contains_copyright_or_licensing l h' = (h', Return false).
Proof.
  set (n := length (sets h)).
  set (r := mkReuseInfo (VSet n) (VSet (S n)) (VSet (S (S n))) VNone VNone).
  set (h' := mkHeap (sets h ++ [∅; ∅; ∅]) (infos h ++ [r]) : heap).
  assert (Hrun : __class__ ∅ h = (h', Return (length (infos h)))).
  { unfold __class__. rewrite bool_decide_eq_true_2 by set_solver.
    unfold argument_or_new_set, kwargs_get. rewrite !lookup_empty.
    unfold bind, new_set, new_info, ret. cbn.
    rewrite !length_app, <- !(assoc_L (++)). cbn.
    replace (length (sets h) + 1) with (S n) by (unfold n; lia).
    replace (S n + 1) with (S (S n)) by lia. done. }
  assert (Hl : infos h' !! length (infos h) = Some r)
    by (by apply list_lookup_middle).
  assert (H1 : sets h' !! n = Some ∅)
    by (by apply list_lookup_middle).
  assert (H2 : sets h' !! S n = Some ∅).
  { cbn. rewrite lookup_app_r by (unfold n; lia).
    by replace (S n - length (sets h)) with 1 by (unfold n; lia). }
  assert (H3 : sets h' !! S (S n) = Some ∅).
  { cbn. rewrite lookup_app_r by (unfold n; lia).
    by replace (S (S n) - length (sets h)) with 2 by (unfold n; lia). }
  assert (Hempty : bool_decide ((∅ : gset (@elem Expression)) ≠ ∅) = false)
    by (by apply bool_decide_eq_false_2; intros []).
  exists h', (length (infos h)), n, (S n), (S (S n)).
  split; [done|]. split; [by apply lookup_ge_None_2|]. split; [done|].
  split.
  { repeat constructor; rewrite ?elem_of_cons, ?elem_of_nil; lia. }
  split.
  { repeat (apply Forall_cons_2;
              [split; [apply lookup_ge_None_2; unfold n; lia | assumption]|]).
    apply Forall_nil_2. }
  split.
  - unfold __bool__.
    rewrite (bind_Return _ _ _ _ _ (read_info_Some _ _ _ Hl)).
    cbn [__dict__ fmap list_fmap snd r spdx_expressions copyright_lines
           contributor_lines source_path source_type].
    rewrite (any_cons _ _ _ _ (truth_set _ _ _ H1)), Hempty.
    rewrite (any_cons _ _ _ _ (truth_set _ _ _ H2)), Hempty.
    by rewrite (any_cons _ _ _ _ (truth_set _ _ _ H3)), Hempty.
  - unfold contains_copyright_or_licensing.
    rewrite (bind_Return _ _ _ _ _ (read_info_Some _ _ _ Hl)).
    cbn [r spdx_expressions copyright_lines].
    rewrite (bind_Return _ _ _ _ _ (truth_set _ _ _ H1)), Hempty.
    by rewrite (truth_set _ _ _ H2), Hempty.
Qed.

(** *** [copy] after [copy] *)

Lemma kwargs_get_union kwargs1 kwargs2 key d :
  kwargs_get (kwargs2 ∪ kwargs1) key d
  = kwargs_get kwargs2 key (kwargs_get kwargs1 key d).
Proof.
  unfold kwargs_get. rewrite lookup_union.
  by destruct (kwargs2 !! key), (kwargs1 !! key).
Qed.

Lemma replaced_replaced r kwargs1 kwargs2 :
  replaced (replaced r kwargs1) kwargs2 = replaced r (kwargs2 ∪ kwargs1).
Proof. unfold replaced. cbn. by rewrite !kwargs_get_union. Qed.

(** X12.  Copying a copy is one copy with both sets of overrides, the
    later call winning where both name an attribute: the instance that
    [copy] with the second overrides builds from the result of [copy]
    with the first is the one that a single [copy] builds from the
    overrides merged. *)
Theorem copy_then_copy_is_copy_of_union h self r kwargs1 kwargs2 :
  infos h !! self = Some r ->
  dom kwargs1 ⊆ list_to_set field_names ->
  dom kwargs2 ⊆ list_to_set field_names ->
  exists r1 r2,
    copy_then_copy self kwargs1 kwargs2 h
    = (mkHeap (sets h) (infos h ++ [r1; r2]),
       Return (S (length (infos h))))
    /\ copy self (kwargs2 ∪ kwargs1) h
       = (mkHeap (sets h) (infos h ++ [r2]), Return (length (infos h))).
Proof.
  intros Hself Hdom1 Hdom2.
  exists (replaced r kwargs1), (replaced r (kwargs2 ∪ kwargs1)). split.
  - unfold copy_then_copy.
    rewrite (bind_Return _ _ _ _ _ (copy_runs _ _ _ _ Hself Hdom1)).
    rewrite (copy_runs _ _ (replaced r kwargs1)); [|by apply list_lookup_middle | done].
    unfold new_info. cbn. rewrite length_app, <- (assoc_L (++)). cbn.
    rewrite replaced_replaced. do 2 f_equal. lia.
  - rewrite (copy_runs _ _ r); [done..|]. rewrite dom_union_L. set_solver.
Qed.

(** *** The annotated types are kept *)

Lemma typed_attributes_in h r : typed h r -> attributes_in h r.
Proof.
  intros ([a Ha] & [b Hb] & [c Hc] & Hp & Ht) key value. unfold __dict__.
  rewrite !elem_of_cons, elem_of_nil.
  intros [[= -> ->]|[[= -> ->]|[[= -> ->]|[[= -> ->]|[[= -> ->]|[]]]]]].
  - apply set_of_Some in Ha as (l & -> & Hl). cbn. by rewrite Hl.
  - apply set_of_Some in Hb as (l & -> & Hl). cbn. by rewrite Hl.
  - apply set_of_Some in Hc as (l & -> & Hl). cbn. by rewrite Hl.
  - by destruct (source_path r).
  - by destruct (source_type r).
Qed.

Lemma fits_value_of h key v : fits h key v -> is_Some (value_of h v).
Proof.
  unfold fits. destruct (String.eqb key "source_path");
    [by destruct v|].
  destruct (String.eqb key "source_type"); [by destruct v|].
  intros [s Hs]. apply set_of_Some in Hs as (l & -> & Hl). cbn.
  by rewrite Hl.
Qed.

Lemma fits_mono h h' key v :
  sets h `prefix_of` sets h' -> fits h key v -> fits h' key v.
Proof.
  intros [k Hk]. unfold fits.
  destruct (String.eqb key "source_path"); [done|].
  destruct (String.eqb key "source_type"); [done|].
  intros [s Hs]. apply set_of_Some in Hs as (l & -> & Hl). cbn.
  exists s. rewrite Hk. by apply lookup_app_l_Some.
Qed.

Lemma getattr_Some_field r key value :
  getattr r key = Some value -> key ∈ field_names.
Proof.
  intros Hattr. apply getattr_cases in Hattr.
  by apply (list_elem_of_fmap_2 fst) in Hattr.
Qed.

Lemma typed_intro h r :
  (forall key value, getattr r key = Some value -> fits h key value) ->
  typed h r.
Proof.
  intros Hfits. repeat split.
  - exact (Hfits "spdx_expressions" _ eq_refl).
  - exact (Hfits "copyright_lines" _ eq_refl).
  - exact (Hfits "contributor_lines" _ eq_refl).
  - exact (Hfits "source_path" _ eq_refl).
  - exact (Hfits "source_type" _ eq_refl).
Qed.

Lemma typed_fits h r key value :
  typed h r -> getattr r key = Some value -> fits h key value.
Proof.
  intros (Ha & Hb & Hc & Hp & Ht) Hattr. apply getattr_cases in Hattr.
  revert Hattr. unfold __dict__. rewrite !elem_of_cons, elem_of_nil.
  by intros [[= -> ->]|[[= -> ->]|[[= -> ->]|[[= -> ->]|[[= -> ->]|[]]]]]].
Qed.

(** X13.  When the attributes of the receiver have their annotated types
    and so has every override, [copy] and [copy_union] both return an
    instance whose attributes have their annotated types. *)
Theorem copy_and_copy_union_keep_annotated_types h self r kwargs :
  infos h !! self = Some r ->
  dom kwargs ⊆ list_to_set field_names ->
  typed h r -> typed_overrides h kwargs ->
  (exists h1 l1 r1,
      copy self kwargs h = (h1, Return l1)
      /\ infos h1 !! l1 = Some r1 /\ typed h1 r1)
  /\ (exists h1 l1 r1,
         copy_union self kwargs h = (h1, Return l1)
         /\ infos h1 !! l1 = Some r1 /\ typed h1 r1).
Proof.
  intros Hself Hdom Htyped Hfits. split.
  - exists (mkHeap (sets h) (infos h ++ [replaced r kwargs])),
      (length (infos h)), (replaced r kwargs).
    split; [by apply copy_runs|].
    split; [by apply list_lookup_middle|].
    apply typed_intro. intros key value Hattr. unfold fits. cbn [sets].
    pose proof (getattr_Some_field _ _ _ Hattr) as Hkey.
    destruct (kwargs !! key) as [v|] eqn:Hv.
    + rewrite (getattr_replaced_named _ _ _ _ Hkey Hv) in Hattr.
      injection Hattr as <-. by apply Hfits.
    + rewrite (getattr_replaced_absent _ _ _ Hkey Hv) in Hattr.
      by apply (typed_fits h r).
  - destruct (copy_union_attributes h self r kwargs Hself Hdom)
      as (h1 & r1 & Hrun & Hinfo & Hpre & Hall).
    { by apply typed_attributes_in. }
    { intros key v Hv. eapply fits_value_of. by apply Hfits. }
    { intros key value t Hkv Hset Hv. apply elem_of_getattr in Hkv.
      pose proof (typed_fits _ _ _ _ Htyped Hkv) as Hold.
      pose proof (Hfits _ _ Hv) as Hnew. unfold fits in Hold, Hnew.
      destruct (String.eqb key "source_path"); [by destruct value|].
      destruct (String.eqb key "source_type"); [by destruct value|].
      by destruct Hnew. }
    exists h1, (length (infos h)), r1. split; [done|].
    split; [rewrite Hinfo; by apply list_lookup_middle|].
    apply typed_intro. intros key v1 Hattr1.
    pose proof (getattr_Some_field _ _ _ Hattr1) as Hkey.
    destruct (getattr_field r key Hkey) as [value Hvalue].
    destruct (Hall key value Hvalue) as (v' & Hv' & Hval & Href).
    rewrite Hattr1 in Hv'. injection Hv' as <-.
    pose proof (typed_fits _ _ _ _ Htyped Hvalue) as Hold.
    destruct (kwargs !! key) as [v|] eqn:Hv.
    + pose proof (Hfits _ _ Hv) as Hnew.
      unfold fits in Hold, Hnew |- *.
      unfold replaces, kwargs_get, merged, override_of in Href, Hval.
      rewrite Hv in Href, Hval. cbn in Href, Hval.
      destruct (String.eqb key "source_path").
      { rewrite Href; [done|]. by destruct value. }
      destruct (String.eqb key "source_type").
      { rewrite Href; [done|]. by destruct value. }
      destruct Hold as [o Ho]. destruct Hnew as [s Hs].
      apply set_of_Some in Ho as (lo & -> & Ho).
      apply set_of_Some in Hs as (ls & -> & Hs).
      cbn in Hval. rewrite Ho, Hs in Hval. cbn in Hval.
      case_bool_decide; cbn in Hval; apply value_of_PSet in Hval;
        by eexists.
    + rewrite Href.
      * unfold kwargs_get. rewrite Hv. by apply (fits_mono h).
      * unfold replaces, override_of. rewrite Hv. apply orb_true_r.
Qed.

End ReuseInfo_by_value_facts.

(** ** The operations by value on the sample stores *)

Section samples_by_value.

Local Abbreviation override_path :=
  ({[ "source_path" := VStr "bar.py" ]} : gmap string val).

Local Abbreviation docstring_kwargs :=
  (<["copyright_lines" := VSet 3]> override_path : gmap string val).

Local Abbreviation pyvalue := (@pyvalue string _ _).

Lemma docstring_attributes_in : attributes_in docstring_store old.
Proof.
  intros key value. unfold __dict__. rewrite !elem_of_cons, elem_of_nil.
  intros [[= -> ->]|[[= -> ->]|[[= -> ->]|[[= -> ->]|[[= -> ->]|[]]]]]];
    by eexists.
Defined.

Lemma docstring_overrides_in : overrides_in docstring_store docstring_kwargs.
Proof.
  intros key v Hv. apply lookup_insert_Some in Hv as [[_ <-]|[_ Hv]].
  - by eexists.
  - apply lookup_singleton_Some in Hv as [_ <-]. by eexists.
Defined.

Lemma docstring_overrides_iterable :
  overrides_iterable old docstring_kwargs.
Proof.
  intros key value t _ _ Hv.
  apply lookup_insert_Some in Hv as [[_ [=]]|[_ Hv]].
  by apply lookup_singleton_Some in Hv as [_ [=]].
Defined.

Lemma singleton_overrides_in (h : @heap string _ _) key v :
  is_Some (value_of h v) -> overrides_in h {[ key := v ]}.
Proof. intros Hv k w [_ <-]%lookup_singleton_Some. exact Hv. Defined.

Lemma singleton_overrides_iterable r key v :
  (forall t, v ≠ VSourceType t) -> overrides_iterable r {[ key := v ]}.
Proof.
  intros Hv k value t _ _ [_ ->]%lookup_singleton_Some. by apply (Hv t).
Defined.

Lemma singleton_field_dom key (v : val) :
  key ∈ field_names ->
  dom ({[ key := v ]} : gmap string val) ⊆ list_to_set field_names.
Proof. intros Hkey. rewrite dom_singleton_L. set_solver. Defined.

Lemma copyright_lines_field : "copyright_lines" ∈ field_names.
Proof. apply list_elem_of_further, list_elem_of_here. Defined.

Lemma source_path_field : "source_path" ∈ field_names.
Proof. do 3 apply list_elem_of_further. apply list_elem_of_here. Defined.

Lemma docstring_store_contains :
  contains_copyright_or_licensing 0 docstring_store
  = (docstring_store, Return true).
Proof.
  rewrite (contains_by_value docstring_store 0 old (PSet ∅)
             (PSet {[ EStr "Jane Doe" ]}) eq_refl eq_refl eq_refl).
  reflexivity.
Defined.

Lemma copy_union_by_value_witness :
  exists h1 l1,
    copy_union 0 docstring_kwargs docstring_store = (h1, Return l1)
    /\ infos docstring_store !! l1 = None
    /\ by_value h1 l1
       = Some ((fun kv => (kv.1, merged docstring_store docstring_kwargs
                                   kv.1 kv.2)) <$> __dict__ old).
Proof.
  exact (copy_union_by_value docstring_store 0 old docstring_kwargs
           eq_refl docstring_kwargs_dom docstring_attributes_in
           docstring_overrides_in docstring_overrides_iterable).
Defined.

(** The docstring of [copy_union], every attribute by value. *)
Example docstring_merged :
  (fun kv => (kv.1, merged docstring_store docstring_kwargs kv.1 kv.2))
    <$> __dict__ old
  = [ ("spdx_expressions", Some (PSet ∅));
      ("copyright_lines",
       Some (PSet ({[ EStr "Jane Doe" ]} ∪ {[ EStr "Mr X" ]})));
      ("contributor_lines", Some (PSet ∅));
      ("source_path", Some (PStr "bar.py"));
      ("source_type", Some PNone) ].
Proof.
  unfold __dict__, merged, override_of.
  cbn [fmap list_fmap fst snd old spdx_expressions copyright_lines
         contributor_lines source_path source_type].
  rewrite lookup_insert_eq.
  rewrite !lookup_insert_ne, !lookup_singleton_ne, lookup_singleton_eq
    by done.
  cbn. by rewrite bool_decide_eq_true_2 by set_solver.
Qed.

Lemma copy_union_again_by_value_witness :
  exists h1 l1 h2 l2,
    copy_union 0 docstring_kwargs docstring_store = (h1, Return l1)
    /\ copy_union_then 0 docstring_kwargs docstring_kwargs docstring_store
       = (h2, Return l2)
    /\ l1 ≠ l2
    /\ by_value h2 l1
       = Some ((fun kv => (kv.1, merged docstring_store docstring_kwargs
                                   kv.1 kv.2)) <$> __dict__ old)
    /\ by_value h2 l2 = by_value h2 l1.
Proof.
  exact (copy_union_again_by_value docstring_store 0 old docstring_kwargs
           eq_refl docstring_kwargs_dom docstring_attributes_in
           docstring_overrides_in docstring_overrides_iterable).
Defined.

Local Abbreviation string_kwargs :=
  ({[ "copyright_lines" := VStr "Mr X" ]} : gmap string val).

Lemma copy_union_string_adds_characters_witness :
  exists h1 l1,
    copy_union 0 string_kwargs docstring_store = (h1, Return l1)
    /\ attribute_set h1 l1 "copyright_lines"
       = Some ({[ EStr "Jane Doe" ]}
                 ∪ ({[ EStr "M" ]}
                      ∪ ({[ EStr "r" ]}
                           ∪ ({[ EStr " " ]} ∪ ({[ EStr "X" ]} ∪ ∅))))).
Proof.
  destruct (copy_union_string_adds_characters docstring_store 0 old
              string_kwargs "copyright_lines" 0 {[ EStr "Jane Doe" ]}
              "Mr X" eq_refl
              (singleton_field_dom _ _ copyright_lines_field)
              docstring_attributes_in
              (singleton_overrides_in docstring_store _ (VStr "Mr X")
                 (mk_is_Some _ (PStr "Mr X") eq_refl))
              (singleton_overrides_iterable old "copyright_lines"
                 (VStr "Mr X") ltac:(intros t; discriminate))
              eq_refl eq_refl (lookup_singleton_eq _ _)
              ltac:(discriminate))
    as (h1 & l1 & Hrun & Hset & _).
  exists h1, l1. split; [exact Hrun | exact Hset].
Defined.

Local Abbreviation source_type_kwargs :=
  ({[ "copyright_lines" := VSourceType FILE_HEADER ]} : gmap string val).

Lemma copy_union_SourceType_for_set_raises_TypeError_witness :
  exists h',
    copy_union 0 source_type_kwargs docstring_store = (h', Raise TypeError)
    /\ infos h' = infos docstring_store
    /\ sets docstring_store `prefix_of` sets h'.
Proof.
  exact (copy_union_SourceType_for_set_raises_TypeError docstring_store 0
           old source_type_kwargs "copyright_lines" 0 FILE_HEADER eq_refl
           (singleton_field_dom _ _ copyright_lines_field)
           docstring_attributes_in
           (singleton_overrides_in docstring_store _
              (VSourceType FILE_HEADER)
              (mk_is_Some _ (PSourceType FILE_HEADER) eq_refl))
           eq_refl (lookup_singleton_eq _ _)).
Defined.

Lemma copy_union_shares_attributes_without_override_witness :
  exists h1 l1 r1,
    copy_union 0 docstring_kwargs docstring_store = (h1, Return l1)
    /\ infos h1 !! l1 = Some r1
    /\ getattr r1 "contributor_lines" = Some (VSet 2).
Proof.
  destruct (copy_union_shares_attributes_without_override docstring_store
              0 old docstring_kwargs eq_refl docstring_kwargs_dom
              docstring_attributes_in docstring_overrides_in
              docstring_overrides_iterable)
    as (h1 & l1 & r1 & Hrun & Hl1 & Hkeep).
  exists h1, l1, r1. split; [exact Hrun|]. split; [exact Hl1|].
  refine (Hkeep "contributor_lines" _ _).
  - do 2 apply list_elem_of_further. apply list_elem_of_here.
  - rewrite lookup_insert_ne by done. by apply lookup_singleton_ne.
Defined.

Lemma copy_union_replaces_without_union_witness :
  exists h1 l1 r1,
    copy_union 0 docstring_kwargs docstring_store = (h1, Return l1)
    /\ infos h1 !! l1 = Some r1
    /\ getattr r1 "source_path" = Some (VStr "bar.py").
Proof.
  destruct (copy_union_replaces_without_union docstring_store 0 old
              docstring_kwargs eq_refl docstring_kwargs_dom
              docstring_attributes_in docstring_overrides_in
              docstring_overrides_iterable)
    as (h1 & l1 & r1 & Hrun & Hl1 & Hreplace).
  exists h1, l1, r1. split; [exact Hrun|]. split; [exact Hl1|].
  refine (Hreplace "source_path" (VStr "foo.py") (VStr "bar.py") eq_refl
            _ (or_introl eq_refl)).
  rewrite lookup_insert_ne by done. apply lookup_singleton_eq.
Defined.

Lemma docstring_overrides_true key v (p : pyvalue) :
  key = "spdx_expressions" \/ key = "copyright_lines" ->
  docstring_kwargs !! key = Some v ->
  value_of docstring_store v = Some p -> truthy p = true.
Proof.
  intros [->| ->] Hv.
  - rewrite lookup_insert_ne, lookup_singleton_ne in Hv by done.
    discriminate Hv.
  - rewrite lookup_insert_eq in Hv. injection Hv as <-.
    intros [= <-]. apply bool_decide_eq_true_2. set_solver.
Defined.

Lemma copy_union_keeps_copyright_or_licensing_witness :
  exists h1 l1,
    copy_union 0 docstring_kwargs docstring_store = (h1, Return l1)
    /\ contains_copyright_or_licensing l1 h1 = (h1, Return true).
Proof.
  exact (copy_union_keeps_copyright_or_licensing docstring_store 0 old
           docstring_kwargs eq_refl docstring_kwargs_dom
           docstring_attributes_in docstring_overrides_in
           docstring_overrides_iterable docstring_overrides_true
           docstring_store_contains).
Defined.

Lemma __bool___true_iff_some_attribute_true_witness :
  exists answer,
    __bool__ 0 docstring_store = (docstring_store, Return answer)
    /\ answer = true.
Proof.
  destruct (__bool___true_iff_some_attribute_true docstring_store 0 old
              eq_refl docstring_attributes_in) as (answer & Hrun & Hiff).
  exists answer. split; [exact Hrun|]. apply Hiff.
  exists "source_path", (VStr "foo.py"), (PStr "foo.py").
  split; [reflexivity|]. split; reflexivity.
Defined.

Lemma contains_copyright_or_licensing_implies___bool___witness :
  (contains_copyright_or_licensing 0 docstring_store).2 = Return true
  /\ __bool__ 0 docstring_store = (docstring_store, Return true).
Proof.
  assert (Hcontains :
    (contains_copyright_or_licensing 0 docstring_store).2 = Return true)
    by (by rewrite docstring_store_contains).
  split; [exact Hcontains|].
  exact (contains_copyright_or_licensing_implies___bool__ docstring_store 0
           Hcontains).
Defined.

Local Abbreviation later_path :=
  ({[ "source_path" := VStr "baz.py" ]} : gmap string val).

Lemma copy_then_copy_is_copy_of_union_witness :
  exists r1 r2,
    copy_then_copy 0 override_path later_path docstring_store
    = (mkHeap (sets docstring_store) (infos docstring_store ++ [r1; r2]),
       Return 2)
    /\ copy 0 (later_path ∪ override_path) docstring_store
       = (mkHeap (sets docstring_store) (infos docstring_store ++ [r2]),
          Return 1).
Proof.
  exact (copy_then_copy_is_copy_of_union docstring_store 0 old
           override_path later_path eq_refl
           (singleton_field_dom _ _ source_path_field)
           (singleton_field_dom _ _ source_path_field)).
Defined.

Lemma docstring_typed : typed docstring_store old.
Proof. repeat split; by eexists. Defined.

Lemma docstring_typed_overrides :
  typed_overrides docstring_store docstring_kwargs.
Proof.
  intros key v Hv. apply lookup_insert_Some in Hv as [[<- <-]|[_ Hv]].
  - by eexists.
  - by apply lookup_singleton_Some in Hv as [<- <-].
Defined.

Lemma copy_and_copy_union_keep_annotated_types_witness :
  exists h1 l1 r1,
    copy_union 0 docstring_kwargs docstring_store = (h1, Return l1)
    /\ infos h1 !! l1 = Some r1 /\ typed h1 r1.
Proof.
  exact (proj2 (copy_and_copy_union_keep_annotated_types docstring_store 0
                  old docstring_kwargs eq_refl docstring_kwargs_dom
                  docstring_typed docstring_typed_overrides)).
Defined.

Local Abbreviation copyright_kwargs :=
  ({[ "copyright_lines" := VSet 3 ]} : gmap string val).

Lemma copy_union_then_is_copy_union_of_union_witness :
  exists h2 l2 h3 l3 attributes,
    copy_union_then 0 copyright_kwargs override_path docstring_store
    = (h2, Return l2)
    /\ copy_union 0 (copyright_kwargs ∪ override_path) docstring_store
       = (h3, Return l3)
    /\ by_value h2 l2 = Some attributes
    /\ by_value h3 l3 = Some attributes
    /\ attributes
       = (fun kv => (kv.1, merged docstring_store
                             (copyright_kwargs ∪ override_path)
                             kv.1 kv.2)) <$> __dict__ old.
Proof.
  refine (copy_union_then_is_copy_union_of_union docstring_store 0 old
            copyright_kwargs override_path eq_refl
            (singleton_field_dom _ _ copyright_lines_field)
            (singleton_field_dom _ _ source_path_field) _
            docstring_attributes_in
            (singleton_overrides_in docstring_store _ (VSet 3)
               (mk_is_Some _ (PSet {[ EStr "Mr X" ]}) eq_refl))
            (singleton_overrides_in docstring_store _ (VStr "bar.py")
               (mk_is_Some _ (PStr "bar.py") eq_refl))
            (singleton_overrides_iterable old "copyright_lines" (VSet 3)
               ltac:(intros t; discriminate))
            (singleton_overrides_iterable old "source_path"
               (VStr "bar.py") ltac:(intros t; discriminate))).
  apply map_disjoint_singleton_l. by apply lookup_singleton_ne.
Defined.

End samples_by_value.
